(** * DBSCAN with one thread per point: a model of [project.cpp]

    The development follows the C++ source function by function.

    - Coordinates are IEEE binary64 values ([double]), modelled by Rocq's
      primitive floats, so [squaredDistance] computes what the program
      computes (no fused multiply-add is assumed).
    - [int] values are modelled in [Z]. Every [int] of the program stays
      between [-1] and [MAX_POINTS], so no wrap-around can occur.
    - The global array [points] is a list of [MAX_POINTS] cells.
    - [std::atomic] operations are sequentially consistent, hence the
      concurrent program is modelled by interleaving: one step of the system
      is one step of one thread, and every access to shared mutable state is
      a step of its own. *)

From Stdlib Require Import ZArith Lia Bool Sorted.
From Stdlib Require Import Floats.PrimFloat.
From Stdlib Require Floats.SpecFloat Floats.FloatOps Floats.FloatAxioms.
From stdpp Require Import base list relations strings.

Open Scope Z_scope.

(** ** Constants and the point store *)

Definition MAX_POINTS : Z := 10000.
Definition MAX_NEIGHBORS : Z := 10000.

(** [struct Point]: two coordinates, the atomic cluster id ([0] is noise)
    and the atomic visited flag. *)
Record Point := mkPoint {
  x : float;
  y : float;
  clusterId : Z;
  visited : bool
}.

(** [Point(double _x = 0, double _y = 0)] with the default member
    initialisers [clusterId{0}] and [visited{false}]. *)
Definition newPoint (_x _y : float) : Point :=
  {| x := _x; y := _y; clusterId := 0; visited := false |}.

Definition defaultPoint : Point := newPoint 0%float 0%float.

(** [a.x == 0 && a.y == 0], the test the program uses for a slot that was
    never loaded. *)
Definition unset (a : Point) : bool :=
  PrimFloat.eqb (x a) 0%float && PrimFloat.eqb (y a) 0%float.

(** [squaredDistance] *)
Definition squaredDistance (a b : Point) : float :=
  (((x a - x b) * (x a - x b)) + ((y a - y b) * (y a - y b)))%float.

(** ** The neighbour scan *)

(** [neighbors[k] = v] on a heap array: an access outside the array is
    undefined behaviour, here [None]. *)
Definition store_at (buf : list Z) (k v : Z) : option (list Z) :=
  if (0 <=? k) && (k <? Z.of_nat (length buf))
  then Some (<[Z.to_nat k := v]> buf)
  else None.

(** The [for] loop of [findNeighbors], entered at index [i] with the cells
    [points[i .. MAX_POINTS-1]] still to scan. *)
Fixpoint findNeighbors_from (cells : list Point) (i : Z) (point : Point)
    (epsilonSquared : float) (neighbors : list Z) (maxNeighbors count : Z)
    : option (list Z * Z) :=
  match cells with
  | [] => Some (neighbors, count)
  | c :: rest =>
      if count <? maxNeighbors then
        if unset c then
          findNeighbors_from rest (i + 1) point epsilonSquared
                             neighbors maxNeighbors count
        else if PrimFloat.leb (squaredDistance point c) epsilonSquared then
          match store_at neighbors count i with
          | Some neighbors' =>
              findNeighbors_from rest (i + 1) point epsilonSquared
                                 neighbors' maxNeighbors (count + 1)
          | None => None
          end
        else
          findNeighbors_from rest (i + 1) point epsilonSquared
                             neighbors maxNeighbors count
      else Some (neighbors, count)
  end.

(** [findNeighbors]: the result is the buffer after the call and the
    returned count. *)
Definition findNeighbors (points : list Point) (point : Point)
    (epsilonSquared : float) (neighbors : list Z) (maxNeighbors : Z)
    : option (list Z * Z) :=
  findNeighbors_from points 0 point epsilonSquared neighbors maxNeighbors 0.

(** The indices a scan from [i] accepts when nothing stops it early: those
    of the slots that pass both tests of the loop body, the one of line 54
    ([x == 0 && y == 0] is skipped, whether the slot was filled by the
    reading loop or not) and the one of line 55. *)
Fixpoint within_from (cells : list Point) (i : Z) (point : Point)
    (epsilonSquared : float) : list Z :=
  match cells with
  | [] => []
  | c :: rest =>
      if negb (unset c) && PrimFloat.leb (squaredDistance point c) epsilonSquared
      then i :: within_from rest (i + 1) point epsilonSquared
      else within_from rest (i + 1) point epsilonSquared
  end.

Definition within (points : list Point) (point : Point)
    (epsilonSquared : float) : list Z :=
  within_from points 0 point epsilonSquared.

(** The first [count] entries of a buffer: what the callers read. *)
Definition filled (buf : list Z) (count : Z) : list Z :=
  take (Z.to_nat count) buf.

(** ** Shared state of a run *)

(** The globals the workers share: the array [points], the counter
    [nextClusterId] of [dbscan] (passed by reference to every worker) and
    the free permits of the counting semaphore [thread_limiter]. *)
Record Store := mkStore {
  points : list Point;
  nextClusterId : Z;
  thread_limiter : Z
}.

(** [points[k]] and [neighbors[k]] for an [int] index: outside the array the
    access is undefined, here [None]. *)
Definition point_at (pts : list Point) (k : Z) : option Point :=
  if 0 <=? k then pts !! Z.to_nat k else None.

Definition entry_at (buf : list Z) (k : Z) : option Z :=
  if 0 <=? k then buf !! Z.to_nat k else None.

(** [p.visited.exchange(true)] writes [true]; [p.clusterId = c] writes [c]. *)
Definition mark_visited (p : Point) : Point :=
  {| x := x p; y := y p; clusterId := clusterId p; visited := true |}.

Definition assign (c : Z) (p : Point) : Point :=
  {| x := x p; y := y p; clusterId := c; visited := visited p |}.

Definition with_points (st : Store) (pts : list Point) : Store :=
  {| points := pts; nextClusterId := nextClusterId st;
     thread_limiter := thread_limiter st |}.

Definition set_visited (st : Store) (k : Z) : Store :=
  with_points st (alter mark_visited (Z.to_nat k) (points st)).

Definition set_clusterId (st : Store) (k c : Z) : Store :=
  with_points st (alter (assign c) (Z.to_nat k) (points st)).

(** [std::make_unique<int[]>(MAX_NEIGHBORS)]: a zeroed array. *)
Definition fresh_buffer : list Z := replicate (Z.to_nat MAX_NEIGHBORS) 0.

(** ** Workers *)

(** Where an activation of [expandCluster] stands: before the assignment of
    line 64, or inside the loop body for [neighbors[i]] before the exchange
    of line 73 (this is also where the loop test is made), before the scan
    of line 74, before the read of line 81 or before the write of line 82. *)
Inductive Loc := AtAssign | AtExchange | AtFind | AtLoad | AtStore.

(** An activation of [expandCluster]: its parameters, its local array
    [newNeighbors] and its loop variable. The parameter [neighbors] is a
    reference to the caller's array; the caller is suspended for the whole
    activation and no other thread can reach that array, so the activation
    sees a constant array and holds its contents. *)
Record Frame := mkFrame {
  ec_pointIndex : Z;
  ec_neighbors : list Z;
  ec_neighborCount : Z;
  ec_clusterId : Z;
  ec_newNeighbors : list Z;
  ec_i : Z;
  ec_at : Loc
}.

(** A slot of the array [workers] of [dbscan]: a default-constructed
    [std::thread] that runs nothing, or a thread running [processPoint] that
    stands before line 89 (acquire), line 92 (exchange), line 96 (scan),
    line 100 (new cluster id and call), inside [expandCluster], before line
    105 (release), or has returned. *)
Inductive Thread :=
| NotAThread
| AtAcquire (index : Z)
| AtVisit (index : Z)
| AtScan (index : Z)
| AtSeed (index : Z) (neighbors : list Z) (neighborCount : Z)
| InExpand (stack : list Frame)
| AtRelease
| Returned.

Definition enter (pointIndex : Z) (neighbors : list Z)
    (neighborCount cid : Z) : Frame :=
  {| ec_pointIndex := pointIndex; ec_neighbors := neighbors;
     ec_neighborCount := neighborCount; ec_clusterId := cid;
     ec_newNeighbors := fresh_buffer; ec_i := 0; ec_at := AtAssign |}.

Definition goto (f : Frame) (l : Loc) : Frame :=
  {| ec_pointIndex := ec_pointIndex f; ec_neighbors := ec_neighbors f;
     ec_neighborCount := ec_neighborCount f; ec_clusterId := ec_clusterId f;
     ec_newNeighbors := ec_newNeighbors f; ec_i := ec_i f; ec_at := l |}.

(** [++i] and back to the loop test. *)
Definition next_neighbor (f : Frame) : Frame :=
  {| ec_pointIndex := ec_pointIndex f; ec_neighbors := ec_neighbors f;
     ec_neighborCount := ec_neighborCount f; ec_clusterId := ec_clusterId f;
     ec_newNeighbors := ec_newNeighbors f; ec_i := ec_i f + 1;
     ec_at := AtExchange |}.

(** After the scan of line 74 the local array holds the new neighbours. *)
Definition scanned (f : Frame) (buf : list Z) : Frame :=
  {| ec_pointIndex := ec_pointIndex f; ec_neighbors := ec_neighbors f;
     ec_neighborCount := ec_neighborCount f; ec_clusterId := ec_clusterId f;
     ec_newNeighbors := buf; ec_i := ec_i f; ec_at := AtLoad |}.

(** Return from [expandCluster]: to the calling activation, or to
    [processPoint], which goes on to release its permit. *)
Definition leave (rest : list Frame) : Thread :=
  match rest with
  | [] => AtRelease
  | _ :: _ => InExpand rest
  end.

Section Worker.

(** The two parameters every worker of a run receives from [dbscan]. *)
Variable epsilonSquared : float.
Variable minPts : Z.

(** One step of the innermost activation [f] of [expandCluster]; [rest]
    are the suspended callers. The third component lists the point for
    which this step invokes [expandCluster], if it does. *)
Definition expandCluster_step (st : Store) (f : Frame) (rest : list Frame)
    : option (Store * Thread * list Z) :=
  match ec_at f with
  | AtAssign =>
      _ ← point_at (points st) (ec_pointIndex f);
      Some (set_clusterId st (ec_pointIndex f) (ec_clusterId f),
            InExpand (goto f AtExchange :: rest), [])
  | AtExchange =>
      if ec_i f <? ec_neighborCount f then
        q ← entry_at (ec_neighbors f) (ec_i f);
        p ← point_at (points st) q;
        if visited p
        then Some (st, InExpand (goto f AtLoad :: rest), [])
        else Some (set_visited st q, InExpand (goto f AtFind :: rest), [])
      else Some (st, leave rest, [])
  | AtFind =>
      q ← entry_at (ec_neighbors f) (ec_i f);
      p ← point_at (points st) q;
      '(buf, newNeighborCount) ←
        findNeighbors (points st) p epsilonSquared (ec_newNeighbors f)
                      MAX_NEIGHBORS;
      if minPts <=? newNeighborCount
      then Some (st,
                 InExpand (enter q buf newNeighborCount (ec_clusterId f)
                             :: scanned f buf :: rest),
                 [q])
      else Some (st, InExpand (scanned f buf :: rest), [])
  | AtLoad =>
      q ← entry_at (ec_neighbors f) (ec_i f);
      p ← point_at (points st) q;
      if clusterId p =? 0
      then Some (st, InExpand (goto f AtStore :: rest), [])
      else Some (st, InExpand (next_neighbor f :: rest), [])
  | AtStore =>
      q ← entry_at (ec_neighbors f) (ec_i f);
      _ ← point_at (points st) q;
      Some (set_clusterId st q (ec_clusterId f),
            InExpand (next_neighbor f :: rest), [])
  end.

(** One step of a worker. [acquire] can only be taken when a permit is
    free; a worker that has returned, or a slot that holds no thread, has
    no step. *)
Definition thread_step (st : Store) (th : Thread)
    : option (Store * Thread * list Z) :=
  match th with
  | NotAThread => None
  | AtAcquire index =>
      if 0 <? thread_limiter st
      then Some ({| points := points st; nextClusterId := nextClusterId st;
                    thread_limiter := thread_limiter st - 1 |},
                 AtVisit index, [])
      else None
  | AtVisit index =>
      p ← point_at (points st) index;
      if visited p
      then Some (st, AtRelease, [])
      else Some (set_visited st index, AtScan index, [])
  | AtScan index =>
      p ← point_at (points st) index;
      '(buf, neighborCount) ←
        findNeighbors (points st) p epsilonSquared fresh_buffer MAX_NEIGHBORS;
      if minPts <=? neighborCount
      then Some (st, AtSeed index buf neighborCount, [])
      else Some (st, AtRelease, [])
  | AtSeed index buf neighborCount =>
      let cid := nextClusterId st + 1 in
      Some ({| points := points st; nextClusterId := cid;
               thread_limiter := thread_limiter st |},
            InExpand [enter index buf neighborCount cid], [index])
  | InExpand [] => None
  | InExpand (f :: rest) => expandCluster_step st f rest
  | AtRelease =>
      Some ({| points := points st; nextClusterId := nextClusterId st;
               thread_limiter := thread_limiter st + 1 |},
            Returned, [])
  | Returned => None
  end.

(** ** The system *)

(** The shared state, the array [workers], and the history of the
    invocations of [expandCluster] so far (a record of the run that no
    step reads). *)
Record Config := mkConfig {
  store : Store;
  workers : list Thread;
  calls : list Z
}.

(** Worker [k] takes its next step. *)
Definition run_thread (k : nat) (c : Config) : option Config :=
  th ← workers c !! k;
  '(st', th', ev) ← thread_step (store c) th;
  Some {| store := st'; workers := <[k := th']> (workers c);
          calls := calls c ++ ev |}.

Inductive step : Config -> Config -> Prop :=
| step_thread k c c' : run_thread k c = Some c' -> step c c'.

(** The workers of a schedule take their steps in turn. *)
Fixpoint run_schedule (sched : list nat) (c : Config) : option Config :=
  match sched with
  | [] => Some c
  | k :: sched' => c' ← run_thread k c; run_schedule sched' c'
  end.

(** A worker slot that needs no further step: [join] returns for it, or
    it is not joinable. *)
Definition idle (th : Thread) : bool :=
  match th with
  | NotAThread | Returned => true
  | _ => false
  end.

(** All workers have returned: the second loop of [dbscan] completes. *)
Definition final (c : Config) : Prop := Forall (fun th => idle th = true) (workers c).

End Worker.

(** ** [dbscan] and [main] *)

(** The first loop of [dbscan]: slot [i] of [workers] gets a thread running
    [processPoint(i, ...)] when [points[i].x != 0 || points[i].y != 0]. *)
Fixpoint spawn_from (cells : list Point) (i : Z) : list Thread :=
  match cells with
  | [] => []
  | c :: rest =>
      (if negb (unset c) then AtAcquire i else NotAThread)
        :: spawn_from rest (i + 1)
  end.

(** The state in which [dbscan] leaves the system to its workers. A worker
    created later in the first loop only starts later, which the
    interleaving already allows, so all of them are present from the
    start. *)
Definition dbscan_start (pts : list Point) : Config :=
  {| store := {| points := pts; nextClusterId := 0; thread_limiter := 16 |};
     workers := spawn_from pts 0;
     calls := [] |}.

(** A run of [dbscan(epsilon, minPts)]: the workers get
    [epsilon * epsilon]. *)
Definition dbscan_step (epsilon : float) (minPts : Z) : relation Config :=
  step (epsilon * epsilon)%float minPts.

Definition dbscan_reaches (epsilon : float) (minPts : Z) (pts : list Point)
    (c : Config) : Prop :=
  rtc (dbscan_step epsilon minPts) (dbscan_start pts) c.

(** The reading loop of [main]: pairs are constructed in place as long as
    [pointCount < MAX_POINTS]. *)
Fixpoint load_from (input : list (float * float)) (pts : list Point)
    (pointCount : Z) : list Point * Z :=
  match input with
  | [] => (pts, pointCount)
  | (a, b) :: input' =>
      if pointCount <? MAX_POINTS
      then load_from input' (<[Z.to_nat pointCount := newPoint a b]> pts)
                     (pointCount + 1)
      else (pts, pointCount)
  end.

(** The global array before [main] runs, and after the reading loop. *)
Definition no_points : list Point := replicate (Z.to_nat MAX_POINTS) defaultPoint.

Definition load (input : list (float * float)) : list Point * Z :=
  load_from input no_points 0.

(** The writing loop of [main]: the slots with [x != 0 || y != 0], in index
    order, each with the three values that line 171 hands to [operator<<].
    These are the operands of the insertions, not the text in the file:
    the text is produced by [write_loop]. *)
Fixpoint output (cells : list Point) : list (float * float * Z) :=
  match cells with
  | [] => []
  | c :: rest =>
      if negb (unset c) then (x c, y c, clusterId c) :: output rest
      else output rest
  end.

(** ** Quantities used in the proofs *)

(** [1] when [points[v]] exists and is visited, [0] otherwise. *)
Definition seen (pts : list Point) (v : Z) : nat :=
  match point_at pts v with
  | Some p => if visited p then 1%nat else 0%nat
  | None => 0%nat
  end.

(** The number of points not yet visited. *)
Definition unvisited (pts : list Point) : nat :=
  sum_list_with (fun p => if visited p then 0%nat else 1%nat) pts.


(** The points a worker has marked visited and for which the decision to
    invoke [expandCluster] is still to be made or carried out: the point of
    a [processPoint] between its exchange and its call, and the neighbour of
    an activation that stands before its scan. *)
Definition frame_pending (f : Frame) : list Z :=
  match ec_at f with
  | AtFind =>
      match entry_at (ec_neighbors f) (ec_i f) with
      | Some q => [q]
      | None => []
      end
  | _ => []
  end.

Definition pending (th : Thread) : list Z :=
  match th with
  | AtScan index | AtSeed index _ _ => [index]
  | InExpand stack => concat (map frame_pending stack)
  | _ => []
  end.

(** How often [v] occurs in the history, and among the pending points of a
    worker. *)
Definition called (v : Z) (l : list Z) : nat := count_occ Z.eq_dec l v.

Definition awaits (v : Z) (th : Thread) : nat := called v (pending th).

(** A worker holds a permit of [thread_limiter] from its acquire to its
    release. *)
Definition holds_permit (th : Thread) : nat :=
  match th with
  | AtVisit _ | AtScan _ | AtSeed _ _ _ | InExpand _ | AtRelease => 1%nat
  | NotAThread | AtAcquire _ | Returned => 0%nat
  end.

(** The number of activations of [expandCluster] on a worker's stack. *)
Definition depth (th : Thread) : nat :=
  match th with
  | InExpand stack => length stack
  | _ => 0%nat
  end.

(** A bound on the steps a worker can still take without marking a new
    point visited; each newly visited point adds at most [visit_budget]. *)
Definition frame_budget : nat := (3 * Z.to_nat MAX_NEIGHBORS + 2)%nat.

Definition visit_budget : nat := (frame_budget + 2)%nat.

(** The constants are kept folded when terms are simplified. *)
Arguments MAX_POINTS : simpl never.
Arguments MAX_NEIGHBORS : simpl never.
Arguments fresh_buffer : simpl never.
Arguments frame_budget : simpl never.
Arguments visit_budget : simpl never.

Definition frame_cost (f : Frame) : nat :=
  let todo := Z.to_nat (ec_neighborCount f - ec_i f) in
  let after := Z.to_nat (ec_neighborCount f - (ec_i f + 1)) in
  match ec_at f with
  | AtAssign => 3 * todo + 2
  | AtExchange => 3 * todo + 1
  | AtFind => 3 * after + 4 + frame_budget
  | AtLoad => 3 * after + 3
  | AtStore => 3 * after + 2
  end%nat.

Definition thread_cost (th : Thread) : nat :=
  match th with
  | NotAThread | Returned => 0
  | AtAcquire _ => 3
  | AtVisit _ => 2
  | AtScan _ => frame_budget + 3
  | AtSeed _ _ neighborCount => 3 * Z.to_nat neighborCount + 4
  | InExpand stack => 1 + sum_list_with frame_cost stack
  | AtRelease => 1
  end%nat.

Definition measure (c : Config) : nat :=
  (visit_budget * unvisited (points (store c))
   + sum_list_with thread_cost (workers c))%nat.

(** ** Well-formed states *)

(** [v] is the index of a slot with [x != 0 || y != 0], which is what the
    program takes for a loaded point. A pair [(0, 0)] read from the input
    fills a slot that is not among them. *)
Definition loaded (pts : list Point) (v : Z) : Prop :=
  exists p, point_at pts v = Some p /\ unset p = false.

(** What a run may change of a point of the array [pts] it started from:
    never the coordinates, and nothing at all in a slot it takes for
    empty. *)
Definition evolves (p0 p : Point) : Prop :=
  x p = x p0 /\ y p = y p0 /\ (unset p0 = true -> p = p0).

Definition wf_buffer (pts : list Point) (buf : list Z) (count : Z) : Prop :=
  count <= Z.of_nat (length buf) /\ Forall (loaded pts) (filled buf count).

Definition wf_frame (pts : list Point) (f : Frame) : Prop :=
  loaded pts (ec_pointIndex f)
  /\ 0 <= ec_i f
  /\ wf_buffer pts (ec_neighbors f) (ec_neighborCount f)
  /\ length (ec_newNeighbors f) = Z.to_nat MAX_NEIGHBORS
  /\ (ec_at f = AtAssign \/ ec_at f = AtExchange
      \/ ec_i f < ec_neighborCount f).

Definition wf_thread (pts : list Point) (th : Thread) : Prop :=
  match th with
  | AtAcquire index | AtVisit index | AtScan index => loaded pts index
  | AtSeed index buf neighborCount =>
      loaded pts index /\ wf_buffer pts buf neighborCount
  | InExpand stack => stack <> [] /\ Forall (wf_frame pts) stack
  | NotAThread | AtRelease | Returned => True
  end.

(** Slot [k] of [workers] belongs to point [k]: it holds no thread when the
    program takes the point for unset, a thread that has not yet passed its
    exchange, or a thread that has, and then the point is visited. *)
Definition owns (pts0 pts : list Point) (k : nat) (th : Thread) : Prop :=
  match th with
  | NotAThread => exists p, pts0 !! k = Some p /\ unset p = true
  | AtAcquire index | AtVisit index => index = Z.of_nat k
  | _ => seen pts (Z.of_nat k) = 1%nat
  end.

(** The invariant of a run that started from the array [pts0]. *)
Record invariant (pts0 : list Point) (c : Config) : Prop := {
  inv_points : Forall2 evolves pts0 (points (store c));
  inv_workers : Forall (wf_thread pts0) (workers c);
  inv_permits :
    0 <= thread_limiter (store c)
    /\ thread_limiter (store c)
       + Z.of_nat (sum_list_with holds_permit (workers c)) = 16;
  inv_once : forall v,
    (called v (calls c) + sum_list_with (awaits v) (workers c)
     <= seen (points (store c)) v)%nat;
  inv_depth :
    (sum_list_with depth (workers c) <= length (calls c))%nat;
  inv_owns : forall k th,
    workers c !! k = Some th -> owns pts0 (points (store c)) k th
}.


(** ** Observations on a state *)

Definition label (c : Config) (k : nat) : option Z :=
  clusterId <$> points (store c) !! k.

Definition flag (c : Config) (k : nat) : option bool :=
  visited <$> points (store c) !! k.

(** Where worker [k] stands inside [expandCluster]: the location of its
    innermost activation, the point and the cluster id of that activation,
    and the neighbour [neighbors[i]] at hand. *)
Definition standing (c : Config) (k : nat) : option (Loc * Z * Z * option Z) :=
  match workers c !! k with
  | Some (InExpand (f :: _)) =>
      Some (ec_at f, ec_pointIndex f, ec_clusterId f,
            entry_at (ec_neighbors f) (ec_i f))
  | _ => None
  end.

(** The threads [dbscan] has started, and the slots of [points] the
    program takes for loaded. *)
Definition started (th : Thread) : nat :=
  match th with
  | NotAThread => 0%nat
  | _ => 1%nat
  end.

Definition threads_started (ws : list Thread) : nat := sum_list_with started ws.

Definition slots_set (pts : list Point) : nat :=
  sum_list_with (fun p => if unset p then 0%nat else 1%nat) pts.

(** The state a schedule leads to ([c] itself when the schedule asks a
    worker for a step it cannot take). *)
Definition run_to (eps2 : float) (minPts : Z) (sched : list nat) (c : Config)
    : Config :=
  default c (run_schedule eps2 minPts sched c).

(** ** The neighbour query as the specification words it

    The numbered definitions below follow the text of the specification,
    not the program; they are what the program is compared with. *)

(** The answer of a query: the indices, or the error. *)
Inductive QueryResult :=
| Neighbors (l : list Z)
| CapacityExceeded.




(** What a caller of [findNeighbors] gets to see: the entries up to the
    returned count. There is no other outcome than a count. *)
Definition observed (r : option (list Z * Z)) : option QueryResult :=
  '(buf, count) ← r; Some (Neighbors (filled buf count)).

(** The configuration check of the specification: [epsilon > 0] and
    [minPts >= 1]. *)
Definition spec_config_ok (epsilon : float) (minPts : Z) : bool :=
  PrimFloat.ltb 0%float epsilon && (1 <=? minPts).

(** ** Inputs used in the examples *)

(** Two points; the first one lies at the origin. *)
Definition with_origin : list (float * float) := [(0, 0); (1, 1)]%float.

(** A point at the origin and two points within [2.5] of it and of each
    other. *)
Definition origin_and_two : list (float * float) :=
  [(0, 0); (1, 1); (1.5, 1)]%float.

(** Three points on a line, one unit apart. *)
Definition three_in_a_row : list (float * float) :=
  [(1, 1); (2, 1); (3, 1)]%float.

(** A point at [(10, 0)] within [2.5] of two groups of three points that
    are farther than [2.5] from each other. With [minPts = 4] the two
    points next to it are core points and it is not. *)
Definition two_groups : list (float * float) :=
  [(10, 0); (7.75, 0); (7, 0); (7.25, 0); (12.25, 0); (13, 0); (12.75, 0)]%float.

(** Seventeen points on a line, ten units apart. *)
Definition seventeen : list (float * float) :=
  [(10, 1); (20, 1); (30, 1); (40, 1); (50, 1); (60, 1); (70, 1); (80, 1);
   (90, 1); (100, 1); (110, 1); (120, 1); (130, 1); (140, 1); (150, 1);
   (160, 1); (170, 1)]%float.


(** ** Further notions: the input, and the neighbourhoods of a run *)

(** A pair of the input with both coordinates equal to zero. *)
Definition at_origin (ab : float * float) : bool :=
  PrimFloat.eqb ab.1 0%float && PrimFloat.eqb ab.2 0%float.

(** The point the reading loop constructs from a pair. *)
Definition point_of (ab : float * float) : Point := newPoint ab.1 ab.2.

(** Two points with the same coordinates. *)
Definition same_xy (p p' : Point) : Prop := x p = x p' /\ y p = y p'.

(** An array as the reading loop leaves it: no point is labelled or
    visited. *)
Definition fresh (pts : list Point) : Prop :=
  Forall (fun p => clusterId p = 0 /\ visited p = false) pts.

(** What a step may do to a point: it keeps the coordinates, a visited
    point stays visited and a labelled point stays labelled. *)
Definition grows (p p' : Point) : Prop :=
  same_xy p p'
  /\ (visited p = true -> visited p' = true)
  /\ (clusterId p <> 0 -> clusterId p' <> 0).

Definition store_grows (st st' : Store) : Prop :=
  Forall2 grows (points st) (points st')
  /\ nextClusterId st <= nextClusterId st'.

(** The point of slot [q] has a cluster id. *)
Definition labelled (pts : list Point) (q : Z) : Prop :=
  exists p, point_at pts q = Some p /\ clusterId p <> 0.

(** The cluster id of a point is between [0] and the counter, and a
    labelled point is visited. *)
Definition good_point (next : Z) (p : Point) : Prop :=
  0 <= clusterId p <= next /\ (clusterId p <> 0 -> visited p = true).

(** The number of activations of [expandCluster] for the point [r] on the
    stack of a worker. *)
Definition active (r : Z) (th : Thread) : nat :=
  match th with
  | InExpand stack =>
      sum_list_with
        (fun f => if decide (ec_pointIndex f = r) then 1%nat else 0%nat) stack
  | _ => 0%nat
  end.

Section Neighbourhoods.

(** The parameters of the workers and the array the run started from. *)
Variable epsilonSquared : float.
Variable minPts : Z.
Variable pts0 : list Point.

(** The neighbours of slot [q] as every scan of the program for it
    reports them ([maxNeighbors] is [MAX_NEIGHBORS] in every call). *)
Definition neighborhood (q : Z) : list Z :=
  match point_at pts0 q with
  | Some p => take (Z.to_nat MAX_NEIGHBORS) (within pts0 p epsilonSquared)
  | None => []
  end.

(** A core point: its scan returns at least [minPts] neighbours. *)
Definition core (q : Z) : Prop :=
  minPts <= Z.of_nat (length (neighborhood q)).

(** The expansion from [r] is complete: [r] and all its neighbours are
    labelled. *)
Definition expanded (pts : list Point) (r : Z) : Prop :=
  labelled pts r /\ Forall (labelled pts) (neighborhood r).

(** An activation of [expandCluster] in a run: it was invoked for its
    point, its array holds the neighbours of that point, its cluster id
    was drawn from the counter, its point is labelled once line 64 is
    passed, the neighbours before [neighbors[i]] are labelled, and
    [neighbors[i]] is visited once line 73 is passed. *)
Definition good_frame (st : Store) (invoked : list Z) (f : Frame) : Prop :=
  ec_pointIndex f ∈ invoked
  /\ filled (ec_neighbors f) (ec_neighborCount f)
     = neighborhood (ec_pointIndex f)
  /\ ec_neighborCount f = Z.of_nat (length (neighborhood (ec_pointIndex f)))
  /\ 1 <= ec_clusterId f <= nextClusterId st
  /\ (ec_at f <> AtAssign -> labelled (points st) (ec_pointIndex f))
  /\ Forall (labelled (points st))
            (filled (ec_neighbors f) (Z.min (ec_i f) (ec_neighborCount f)))
  /\ (ec_at f = AtFind \/ ec_at f = AtLoad \/ ec_at f = AtStore ->
      exists q, entry_at (ec_neighbors f) (ec_i f) = Some q
                /\ seen (points st) q = 1%nat).

Definition good_thread (st : Store) (invoked : list Z) (th : Thread) : Prop :=
  match th with
  | AtSeed index buf neighborCount =>
      filled buf neighborCount = neighborhood index
      /\ neighborCount = Z.of_nat (length (neighborhood index))
      /\ minPts <= neighborCount
  | InExpand stack => Forall (good_frame st invoked) stack
  | _ => True
  end.

(** What holds of the labels in every state of a run. *)
Record labelling (c : Config) : Prop := {
  lab_workers : Forall (good_thread (store c) (calls c)) (workers c);
  lab_points :
    0 <= nextClusterId (store c)
    /\ Forall (good_point (nextClusterId (store c))) (points (store c));
  lab_ids : nextClusterId (store c) <= Z.of_nat (length (calls c));
  lab_core : forall q, q ∈ calls c -> core q;
  lab_reason : forall q,
    labelled (points (store c)) q ->
    exists r, r ∈ calls c /\ (q = r \/ q ∈ neighborhood r);
  lab_decided : forall q,
    seen (points (store c)) q = 1%nat ->
    (0 < called q (calls c) + sum_list_with (awaits q) (workers c))%nat
    \/ ~ core q;
  lab_done : forall r,
    r ∈ calls c ->
    (0 < sum_list_with (active r) (workers c))%nat
    \/ expanded (points (store c)) r
}.

End Neighbourhoods.

(** ** [main] as a whole *)

Section Writing.

(** [operator<<] of the output stream for a [double] and for an [int].
    Both belong to the C++ library, not to the program. [main] leaves the
    stream as it was opened, so a [double] is written with the default
    precision of six significant digits: the text is a function of the
    value, and in general not the text the value was read from. *)
Variable show_double : float -> string.
Variable show_int : Z -> string.

(** Line 171 for the operands [t]: [x << " " << y << " " << clusterId],
    ended by [std::endl]. *)
Definition line (t : float * float * Z) : string :=
  show_double t.1.1 +:+ " " +:+ show_double t.1.2 +:+ " " +:+ show_int t.2.

(** A line of the file for the pair [ab]: the text of its two doubles and
    of a label between [0] and [n]. *)
Definition line_for (n : Z) (ab : float * float) (text : string) : Prop :=
  exists l, 0 <= l <= n /\ text = line (ab, l).

(** The writing loop of [main] with its counter: the lines it adds to
    output.txt and the final value of [writtenPoints]. *)
Fixpoint write_loop (cells : list Point) (writtenPoints : Z)
    : list string * Z :=
  match cells with
  | [] => ([], writtenPoints)
  | c :: rest =>
      if negb (unset c) then
        let '(lines, n) := write_loop rest (writtenPoints + 1) in
        (line (x c, y c, clusterId c) :: lines, n)
      else write_loop rest writtenPoints
  end.

(** What [main] finds around it: the pairs that the extraction
    [file >> x >> y] yields from data_10000.txt until it fails, or nothing
    when that file cannot be opened; whether output.txt can be opened; and
    whether standard input ever delivers a character, or its end, to the
    [std::cin.get()] of line 185. *)
Record Environment := mkEnvironment {
  input_file : option (list (float * float));
  output_opens : bool;
  console_answers : bool
}.

(** How a run of [main] ends: with [return 1] at line 132, 146 or 164;
    blocked in the [std::cin.get()] of line 185, the file being written;
    or with [return 0] at line 186. The last two carry the lines of
    output.txt and the count [writtenPoints] that [main] prints. What it
    prints about the run time and the memory counters is not part of the
    outcome. *)
Inductive Outcome :=
| CannotOpenInput
| NoPointsLoaded
| CannotOpenOutput
| WaitsForKey (lines : list string) (writtenPoints : Z)
| Done (lines : list string) (writtenPoints : Z).

Definition exit_code (o : Outcome) : option Z :=
  match o with
  | CannotOpenInput | NoPointsLoaded | CannotOpenOutput => Some 1
  | WaitsForKey _ _ => None
  | Done _ _ => Some 0
  end.

(** The end of [main] from line 161 on, [dbscan] having returned with the
    array [cells]. *)
Definition finish (env : Environment) (cells : list Point) : Outcome :=
  if output_opens env then
    let '(lines, writtenPoints) := write_loop cells 0 in
    if console_answers env
    then Done lines writtenPoints
    else WaitsForKey lines writtenPoints
  else CannotOpenOutput.

(** [main]: the exit when the input cannot be opened; the reading loop;
    the exit when [pointCount == 0]; [dbscan(2.5, 2)], which returns when
    all workers have been joined; then [finish]. *)
Definition main_yields (env : Environment) (o : Outcome) : Prop :=
  match input_file env with
  | None => o = CannotOpenInput
  | Some input =>
      if (load input).2 =? 0 then o = NoPointsLoaded
      else exists c,
             dbscan_reaches 2.5 2 (load input).1 c /\ final c
             /\ o = finish env (points (store c))
  end.

End Writing.

(** The cluster ids a worker is expanding with. *)
Definition ids (th : Thread) : list Z :=
  match th with
  | InExpand stack => ec_clusterId <$> stack
  | _ => []
  end.

(** The ids in use are drawn from the counter, one per worker. *)
Definition ids_unique (c : Config) : Prop :=
  0 <= nextClusterId (store c)
  /\ (forall k th id, workers c !! k = Some th -> id ∈ ids th ->
        1 <= id <= nextClusterId (store c))
  /\ (forall k th id id', workers c !! k = Some th ->
        id ∈ ids th -> id' ∈ ids th -> id = id')
  /\ (forall k k' th th' id, k <> k' ->
        workers c !! k = Some th -> workers c !! k' = Some th' ->
        id ∈ ids th -> id ∉ ids th').
(** ** Facts about the scan *)

Lemma store_at_Some buf k v buf' :
  store_at buf k v = Some buf' ->
  0 <= k < Z.of_nat (length buf) /\ buf' = <[Z.to_nat k := v]> buf.
Proof.
  unfold store_at. intros H.
  destruct (0 <=? k) eqn:E1; destruct (k <? Z.of_nat (length buf)) eqn:E2;
    simpl in H; try discriminate.
  inversion H; subst. split; [lia | reflexivity].
Qed.

Lemma store_at_ok buf k v :
  0 <= k < Z.of_nat (length buf) ->
  store_at buf k v = Some (<[Z.to_nat k := v]> buf).
Proof.
  intros [H1 H2]. unfold store_at.
  apply Z.leb_le in H1. apply Z.ltb_lt in H2. rewrite H1, H2. reflexivity.
Qed.

Lemma within_from_range cells i point eps2 v :
  v ∈ within_from cells i point eps2 -> i <= v < i + Z.of_nat (length cells).
Proof.
  revert i. induction cells as [|c rest IH]; intros i Hv; simpl in *.
  - inversion Hv.
  - destruct (negb (unset c) && _).
    + apply elem_of_cons in Hv as [-> | Hv]; [lia|].
      apply IH in Hv. lia.
    + apply IH in Hv. lia.
Qed.

(** What the loop does, as a whole: with room in the buffer up to
    [maxNeighbors] it never faults, it appends to the [count] entries
    already there the accepted indices, cut at [maxNeighbors] entries in
    all, and it leaves the rest of the buffer alone. *)
Lemma findNeighbors_from_spec cells :
  forall i point eps2 buf maxN count,
    0 <= count ->
    maxN <= Z.of_nat (length buf) ->
    exists buf' count',
      findNeighbors_from cells i point eps2 buf maxN count = Some (buf', count')
      /\ count' = count + Z.of_nat (length (take (Z.to_nat (maxN - count))
                                             (within_from cells i point eps2)))
      /\ length buf' = length buf
      /\ filled buf' count' =
           filled buf count ++ take (Z.to_nat (maxN - count))
                                    (within_from cells i point eps2)
      /\ (forall k : nat, count' <= Z.of_nat k -> buf' !! k = buf !! k).
Proof.
  induction cells as [|c rest IH]; intros i point eps2 buf maxN count Hc Hm; simpl.
  - exists buf, count. rewrite take_nil. simpl.
    split; [reflexivity|]. split; [lia|]. split; [reflexivity|].
    split; [by rewrite app_nil_r | done].
  - destruct (count <? maxN) eqn:Hlt.
    + apply Z.ltb_lt in Hlt.
      destruct (unset c) eqn:Hu; simpl.
      { apply IH; assumption. }
      destruct (PrimFloat.leb (squaredDistance point c) eps2) eqn:Hd.
      2:{ apply IH; assumption. }
      rewrite store_at_ok by lia.
      destruct (IH (i + 1) point eps2 (<[Z.to_nat count := i]> buf) maxN (count + 1))
        as (buf' & count' & Hrun & Hcount & Hlen & Hfill & Hrest).
      { lia. }
      { rewrite length_insert. lia. }
      exists buf', count'. split; [exact Hrun|].
      replace (Z.to_nat (maxN - count)) with (S (Z.to_nat (maxN - (count + 1))))
        by lia.
      rewrite firstn_cons. simpl length.
      split; [lia|]. split; [by rewrite Hlen, length_insert|].
      split.
      * rewrite Hfill. unfold filled.
        replace (Z.to_nat (count + 1)) with (S (Z.to_nat count)) by lia.
        rewrite (take_S_r _ _ i).
        2:{ apply list_lookup_insert_eq. lia. }
        rewrite take_insert_ge by lia.
        by rewrite <- app_assoc.
      * intros k Hk. rewrite Hrest by exact Hk.
        apply list_lookup_insert_ne. lia.
    + apply Z.ltb_ge in Hlt.
      exists buf, count.
      replace (Z.to_nat (maxN - count)) with 0%nat by lia.
      rewrite take_0. simpl.
      split; [reflexivity|]. split; [lia|]. split; [reflexivity|].
      split; [by rewrite app_nil_r | done].
Qed.

Lemma findNeighbors_spec points point eps2 buf maxN :
  maxN <= Z.of_nat (length buf) ->
  exists buf' count,
    findNeighbors points point eps2 buf maxN = Some (buf', count)
    /\ count = Z.of_nat (length (take (Z.to_nat maxN) (within points point eps2)))
    /\ length buf' = length buf
    /\ filled buf' count = take (Z.to_nat maxN) (within points point eps2)
    /\ (forall k : nat, count <= Z.of_nat k -> buf' !! k = buf !! k).
Proof.
  intros Hm.
  destruct (findNeighbors_from_spec points 0 point eps2 buf maxN 0)
    as (buf' & count & Hrun & Hcount & Hlen & Hfill & Hrest); [lia | exact Hm |].
  rewrite Z.sub_0_r in Hcount, Hfill. rewrite Z.add_0_l in Hcount.
  exists buf', count.
  split; [exact Hrun|]. split; [exact Hcount|]. split; [exact Hlen|].
  split; [exact Hfill | exact Hrest].
Qed.

(** ** Reading and writing the point array *)

Lemma point_at_Some pts k p :
  point_at pts k = Some p <-> 0 <= k /\ pts !! Z.to_nat k = Some p.
Proof.
  unfold point_at. destruct (0 <=? k) eqn:E.
  - apply Z.leb_le in E. tauto.
  - apply Z.leb_gt in E. split; [discriminate | lia].
Qed.

Lemma entry_at_Some buf k v :
  entry_at buf k = Some v <-> 0 <= k /\ buf !! Z.to_nat k = Some v.
Proof.
  unfold entry_at. destruct (0 <=? k) eqn:E.
  - apply Z.leb_le in E. tauto.
  - apply Z.leb_gt in E. split; [discriminate | lia].
Qed.

Lemma point_at_alter_eq f pts k p :
  point_at pts k = Some p ->
  point_at (alter f (Z.to_nat k) pts) k = Some (f p).
Proof.
  rewrite !point_at_Some. intros [Hk Hp]. split; [exact Hk|].
  by rewrite list_lookup_alter_eq, Hp.
Qed.

Lemma point_at_alter_ne f pts k j :
  0 <= k -> k <> j ->
  point_at (alter f (Z.to_nat k) pts) j = point_at pts j.
Proof.
  intros Hk Hne. unfold point_at. destruct (0 <=? j) eqn:E; [|reflexivity].
  apply Z.leb_le in E. apply list_lookup_alter_ne. lia.
Qed.

Lemma sum_list_with_cons {A} (f : A -> nat) (a : A) (l : list A) :
  sum_list_with f (a :: l) = (f a + sum_list_with f l)%nat.
Proof. reflexivity. Qed.

Lemma sum_list_with_empty {A} (f : A -> nat) : sum_list_with f [] = 0%nat.
Proof. reflexivity. Qed.

Lemma sum_list_with_insert {A} (f : A -> nat) (l : list A) (k : nat) (a b : A) :
  l !! k = Some a ->
  (sum_list_with f (<[k := b]> l) + f a = sum_list_with f l + f b)%nat.
Proof.
  revert k. induction l as [|c l IH]; intros [|k] Hk; try discriminate.
  - injection Hk as ->. clear IH.
    change (<[0%nat := b]> (a :: l)) with (b :: l).
    rewrite !sum_list_with_cons. lia.
  - change (<[S k := b]> (c :: l)) with (c :: <[k := b]> l).
    rewrite !sum_list_with_cons. specialize (IH k Hk). lia.
Qed.

Lemma sum_list_with_alter {A} (f : A -> nat) (g : A -> A) (l : list A) (k : nat) (a : A) :
  l !! k = Some a ->
  (sum_list_with f (alter g k l) + f a = sum_list_with f l + f (g a))%nat.
Proof.
  intros Hk. rewrite <- (sum_list_with_insert f l k a (g a) Hk).
  f_equal. f_equal.
  apply list_eq. intros j. destruct (decide (k = j)) as [->|Hne].
  - rewrite list_lookup_alter_eq, Hk. simpl.
    symmetry. apply list_lookup_insert_eq. by eapply lookup_lt_Some.
  - by rewrite list_lookup_alter_ne, list_lookup_insert_ne.
Qed.

Lemma seen_mark pts q p v :
  point_at pts q = Some p ->
  seen (alter mark_visited (Z.to_nat q) pts) v
  = if decide (q = v) then 1%nat else seen pts v.
Proof.
  intros Hp. unfold seen. destruct (decide (q = v)) as [->|Hne].
  - by rewrite (point_at_alter_eq _ _ _ _ Hp).
  - apply point_at_Some in Hp as [Hq _].
    by rewrite point_at_alter_ne.
Qed.

Lemma seen_assign pts q c v :
  0 <= q -> seen (alter (assign c) (Z.to_nat q) pts) v = seen pts v.
Proof.
  intros Hq. unfold seen. destruct (decide (q = v)) as [->|Hne].
  - destruct (point_at pts v) as [p|] eqn:Hp.
    + by rewrite (point_at_alter_eq _ _ _ _ Hp).
    + assert (point_at (alter (assign c) (Z.to_nat v) pts) v = None) as ->; [|done].
      unfold point_at in *. destruct (0 <=? v); [|done].
      by rewrite list_lookup_alter_eq, Hp.
  - by rewrite point_at_alter_ne.
Qed.

Lemma unvisited_mark pts q p :
  point_at pts q = Some p -> visited p = false ->
  S (unvisited (alter mark_visited (Z.to_nat q) pts)) = unvisited pts.
Proof.
  intros [_ Hp]%point_at_Some Hv. unfold unvisited.
  pose proof (sum_list_with_alter
                (fun p => if visited p then 0%nat else 1%nat)
                mark_visited pts _ _ Hp) as H.
  simpl in H. rewrite Hv in H. lia.
Qed.

Lemma unvisited_assign pts q c :
  unvisited (alter (assign c) q pts) = unvisited pts.
Proof.
  unfold unvisited. destruct (pts !! q) as [p|] eqn:Hp.
  - pose proof (sum_list_with_alter
                  (fun p => if visited p then 0%nat else 1%nat)
                  (assign c) pts _ _ Hp) as H.
    simpl in H. lia.
  - f_equal. apply list_eq. intros j. destruct (decide (q = j)) as [->|Hne].
    + by rewrite list_lookup_alter_eq, Hp.
    + by rewrite list_lookup_alter_ne.
Qed.

(** ** Every step uses up some of the measure *)

Lemma findNeighbors_from_count cells :
  forall i point eps2 buf maxN count buf' count',
    findNeighbors_from cells i point eps2 buf maxN count = Some (buf', count') ->
    count <= count' <= Z.max count maxN.
Proof.
  induction cells as [|c rest IH]; intros i point eps2 buf maxN count buf' count' H;
    simpl in H.
  - inversion H; subst. lia.
  - destruct (count <? maxN) eqn:Hlt.
    + apply Z.ltb_lt in Hlt.
      destruct (unset c).
      { apply IH in H. lia. }
      destruct (PrimFloat.leb _ _).
      2:{ apply IH in H. lia. }
      destruct (store_at buf count i); [|discriminate].
      apply IH in H. lia.
    + inversion H; subst. lia.
Qed.

Lemma findNeighbors_count points point eps2 buf maxN buf' count :
  findNeighbors points point eps2 buf maxN = Some (buf', count) ->
  0 <= count <= Z.max 0 maxN.
Proof. apply findNeighbors_from_count. Qed.

(** Case analysis on a step: the tests of [thread_step] are decided one
    after the other, in the hypothesis alone. *)
Ltac step_cases H :=
  unfold thread_step, expandCluster_step in H;
  repeat lazymatch type of H with
    | None = Some _ => discriminate H
    | mbind _ ?m = Some _ =>
        destruct m eqn:?; cbn [mbind option_bind] in H; cbv beta in H
    | match ?t with _ => _ end = Some _ => destruct t eqn:?
    end;
  injection H as <- <- <-.

Ltac scan_bounds :=
  repeat match goal with
  | H : findNeighbors _ _ _ _ _ = Some _ |- _ =>
      apply findNeighbors_count in H
  end.

Lemma thread_step_cost eps2 minPts st th st' th' ev :
  thread_step eps2 minPts st th = Some (st', th', ev) ->
  (visit_budget * unvisited (points st') + thread_cost th'
   < visit_budget * unvisited (points st) + thread_cost th)%nat.
Proof.
  intros H. step_cases H; scan_bounds.
  all: unfold set_visited, set_clusterId, leave; cbn [points with_points].
  all: rewrite ?unvisited_assign.
  all: try match goal with
       | Hp : point_at ?pts ?q = Some ?p, Hv : visited ?p = false
         |- context [unvisited (alter mark_visited (Z.to_nat ?q) ?pts)] =>
           rewrite <- (unvisited_mark pts q p Hp Hv)
       end.
  all: try match goal with |- context [match ?l with [] => _ | _ => _ end] =>
         destruct l end.
  all: cbn [thread_cost]; rewrite ?sum_list_with_cons, ?sum_list_with_empty.
  all: unfold frame_cost;
       cbn [ec_at ec_i ec_neighborCount goto next_neighbor scanned enter].
  all: repeat match goal with H : ec_at _ = _ |- _ => rewrite H end.
  all: unfold visit_budget, frame_budget.
  all: try lia.
Qed.

(** ** What a step of a worker does to the counters of the invariant *)

Lemma thread_step_permits eps2 minPts st th st' th' ev :
  thread_step eps2 minPts st th = Some (st', th', ev) ->
  thread_limiter st' + Z.of_nat (holds_permit th')
  = thread_limiter st + Z.of_nat (holds_permit th)
  /\ (0 <= thread_limiter st -> 0 <= thread_limiter st').
Proof.
  intros H. step_cases H.
  all: unfold set_visited, set_clusterId, leave;
       cbn [thread_limiter with_points holds_permit].
  all: try match goal with |- context [match ?l with [] => _ | _ => _ end] =>
         destruct l end.
  all: cbn [holds_permit]; lia.
Qed.

Lemma thread_step_depth eps2 minPts st th st' th' ev :
  thread_step eps2 minPts st th = Some (st', th', ev) ->
  (depth th' <= depth th + length ev)%nat.
Proof.
  intros H. step_cases H.
  all: unfold leave.
  all: try match goal with |- context [match ?l with [] => _ | _ => _ end] =>
         destruct l end.
  all: cbn [depth length]; lia.
Qed.

Lemma seen_unvisited pts q p :
  point_at pts q = Some p -> visited p = false -> seen pts q = 0%nat.
Proof. intros Hp Hv. unfold seen. by rewrite Hp, Hv. Qed.

Lemma seen_le_1 pts v : (seen pts v <= 1)%nat.
Proof. unfold seen. repeat case_match; lia. Qed.

Lemma called_app v l1 l2 : called v (l1 ++ l2) = (called v l1 + called v l2)%nat.
Proof. apply count_occ_app. Qed.

Lemma called_one v q : called v [q] = if decide (q = v) then 1%nat else 0%nat.
Proof.
  unfold called. simpl. destruct (Z.eq_dec q v), (decide (q = v)); congruence.
Qed.

Lemma awaits_push v f rest :
  awaits v (InExpand (f :: rest))
  = (called v (frame_pending f) + awaits v (InExpand rest))%nat.
Proof. unfold awaits. simpl. apply called_app. Qed.

Lemma awaits_leave v rest : awaits v (leave rest) = awaits v (InExpand rest).
Proof. by destruct rest. Qed.

Lemma thread_step_once eps2 minPts st th st' th' ev v :
  thread_step eps2 minPts st th = Some (st', th', ev) ->
  (called v ev + awaits v th' + seen (points st) v
   <= awaits v th + seen (points st') v)%nat.
Proof.
  intros H. step_cases H.
  all: unfold set_visited, set_clusterId; cbn [points with_points].
  all: rewrite ?awaits_leave, ?awaits_push.
  all: unfold frame_pending;
       cbn [ec_at ec_i ec_neighbors goto next_neighbor scanned enter].
  all: repeat match goal with
       | H : ec_at _ = _ |- _ => rewrite H
       | H : entry_at _ _ = Some _ |- _ => rewrite H
       end.
  all: try match goal with
       | Hp : point_at ?pts ?q = Some ?p, Hv : visited ?p = false
         |- context [seen (alter mark_visited (Z.to_nat ?q) ?pts) _] =>
           rewrite (seen_mark pts q p _ Hp);
           pose proof (seen_unvisited pts q p Hp Hv)
       end.
  all: try match goal with
       | Hp : point_at ?pts ?q = Some _
         |- context [seen (alter (assign _) (Z.to_nat ?q) ?pts) _] =>
           rewrite seen_assign by (by apply point_at_Some in Hp as [? _])
       end.
  all: unfold awaits; cbn [pending map concat].
  all: rewrite ?called_one.
  all: repeat case_decide; subst; unfold called; cbn [count_occ]; try lia.
  all: pose proof (seen_le_1 (points st) v); lia.
Qed.

Lemma thread_step_seen eps2 minPts st th st' th' ev v :
  thread_step eps2 minPts st th = Some (st', th', ev) ->
  (seen (points st) v <= seen (points st') v)%nat.
Proof.
  intros H. step_cases H.
  all: unfold set_visited, set_clusterId; cbn [points with_points].
  all: try match goal with
       | Hp : point_at ?pts ?q = Some ?p
         |- context [seen (alter mark_visited (Z.to_nat ?q) ?pts) _] =>
           rewrite (seen_mark pts q p _ Hp)
       end.
  all: try match goal with
       | Hp : point_at ?pts ?q = Some _
         |- context [seen (alter (assign _) (Z.to_nat ?q) ?pts) _] =>
           rewrite seen_assign by (by apply point_at_Some in Hp as [? _])
       end.
  all: try case_decide; try lia.
  all: apply seen_le_1.
Qed.

(** ** Well-formed workers stay well formed *)

Lemma evolves_unset p0 p : evolves p0 p -> unset p = unset p0.
Proof. intros (Hx & Hy & _). unfold unset. by rewrite Hx, Hy. Qed.

Lemma evolves_refl p : evolves p p.
Proof. by split; [|split]. Qed.

Lemma evolves_point_at pts0 pts v p0 :
  Forall2 evolves pts0 pts -> point_at pts0 v = Some p0 ->
  exists p, point_at pts v = Some p /\ evolves p0 p.
Proof.
  intros HF [Hv Hp0]%point_at_Some.
  destruct (Forall2_lookup_l _ _ _ _ _ HF Hp0) as (p & Hp & He).
  exists p. split; [|exact He]. by apply point_at_Some.
Qed.

Lemma evolves_point_at_r pts0 pts v p :
  Forall2 evolves pts0 pts -> point_at pts v = Some p ->
  exists p0, point_at pts0 v = Some p0 /\ evolves p0 p.
Proof.
  intros HF [Hv Hp]%point_at_Some.
  destruct (Forall2_lookup_r _ _ _ _ _ HF Hp) as (p0 & Hp0 & He).
  exists p0. split; [|exact He]. by apply point_at_Some.
Qed.

Lemma loaded_now pts0 pts v :
  Forall2 evolves pts0 pts -> loaded pts0 v ->
  exists p, point_at pts v = Some p /\ unset p = false.
Proof.
  intros HF (p0 & Hp0 & Hu).
  destruct (evolves_point_at _ _ _ _ HF Hp0) as (p & Hp & He).
  exists p. split; [exact Hp|]. by rewrite (evolves_unset _ _ He).
Qed.

Lemma loaded_then pts0 pts v :
  Forall2 evolves pts0 pts -> loaded pts v -> loaded pts0 v.
Proof.
  intros HF (p & Hp & Hu).
  destruct (evolves_point_at_r _ _ _ _ HF Hp) as (p0 & Hp0 & He).
  exists p0. split; [exact Hp0|]. by rewrite <- (evolves_unset _ _ He).
Qed.

(** A write to a loaded slot that keeps the coordinates. *)
Lemma evolves_alter pts0 pts (f : Point -> Point) q :
  (forall p, x (f p) = x p /\ y (f p) = y p) ->
  Forall2 evolves pts0 pts -> loaded pts0 q ->
  Forall2 evolves pts0 (alter f (Z.to_nat q) pts).
Proof.
  intros Hf HF (p0 & [Hq Hp0]%point_at_Some & Hu).
  apply Forall2_same_length_lookup. split.
  { rewrite length_alter. by eapply Forall2_length. }
  intros k a b Ha Hb.
  destruct (decide (Z.to_nat q = k)) as [<-|Hne].
  - rewrite list_lookup_alter_eq in Hb.
    destruct (pts !! Z.to_nat q) as [p|] eqn:Hp; [|discriminate].
    simpl in Hb. injection Hb as <-.
    assert (a = p0) as -> by congruence.
    pose proof (Forall2_lookup_lr _ _ _ _ _ _ HF Hp0 Hp) as (Hx & Hy & _).
    destruct (Hf p) as [Hfx Hfy].
    split; [congruence|]. split; [congruence|]. congruence.
  - rewrite list_lookup_alter_ne in Hb by exact Hne.
    by eapply Forall2_lookup_lr.
Qed.

Lemma within_from_loaded cells i point eps2 v :
  v ∈ within_from cells i point eps2 ->
  exists c, cells !! Z.to_nat (v - i) = Some c /\ i <= v /\ unset c = false.
Proof.
  revert i. induction cells as [|c rest IH]; intros i Hv; simpl in Hv.
  - inversion Hv.
  - assert (v ∈ within_from rest (i + 1) point eps2 ->
            exists c0, (c :: rest) !! Z.to_nat (v - i) = Some c0
                       /\ i <= v /\ unset c0 = false) as Hrest.
    { intros Hin. destruct (IH _ Hin) as (c0 & Hc0 & Hle & Hu).
      exists c0. split; [|split; [lia | exact Hu]].
      replace (Z.to_nat (v - i)) with (S (Z.to_nat (v - (i + 1)))) by lia.
      exact Hc0. }
    destruct (negb (unset c) && _) eqn:Hk; [|by apply Hrest].
    apply elem_of_cons in Hv as [-> | Hv]; [|by apply Hrest].
    exists c. replace (i - i) with 0 by lia.
    split; [reflexivity|]. split; [lia|].
    apply andb_true_iff in Hk as [Hk _]. by apply negb_true_iff.
Qed.

Lemma within_loaded pts point eps2 v :
  v ∈ within pts point eps2 -> loaded pts v.
Proof.
  intros (c & Hc & Hv & Hu)%within_from_loaded.
  rewrite Z.sub_0_r in Hc. exists c. split; [|exact Hu].
  by apply point_at_Some.
Qed.

Lemma in_take {A} (l : list A) (n : nat) (v : A) : v ∈ take n l -> v ∈ l.
Proof.
  intros Hv. rewrite <- (take_drop n l). apply elem_of_app. by left.
Qed.

Lemma findNeighbors_wf pts0 pts point eps2 buf buf' count :
  Forall2 evolves pts0 pts ->
  length buf = Z.to_nat MAX_NEIGHBORS ->
  findNeighbors pts point eps2 buf MAX_NEIGHBORS = Some (buf', count) ->
  wf_buffer pts0 buf' count /\ length buf' = Z.to_nat MAX_NEIGHBORS.
Proof.
  intros HF Hlen Hrun.
  destruct (findNeighbors_spec pts point eps2 buf MAX_NEIGHBORS)
    as (buf'' & count'' & Hrun' & Hcount & Hlen' & Hfill & _).
  { rewrite Hlen. unfold MAX_NEIGHBORS. lia. }
  rewrite Hrun in Hrun'. injection Hrun' as <- <-.
  split; [|congruence].
  split.
  - rewrite Hcount, length_take, Hlen', Hlen. unfold MAX_NEIGHBORS. lia.
  - rewrite Hfill. apply Forall_forall. intros v Hv.
    apply (loaded_then pts0 pts _ HF). eapply within_loaded.
    eapply in_take, Hv.
Qed.

Lemma findNeighbors_runs pts point eps2 buf :
  length buf = Z.to_nat MAX_NEIGHBORS ->
  exists buf' count,
    findNeighbors pts point eps2 buf MAX_NEIGHBORS = Some (buf', count).
Proof.
  intros Hlen.
  destruct (findNeighbors_spec pts point eps2 buf MAX_NEIGHBORS)
    as (buf' & count & Hrun & _).
  { rewrite Hlen. unfold MAX_NEIGHBORS. lia. }
  by exists buf', count.
Qed.

Lemma length_fresh_buffer : length fresh_buffer = Z.to_nat MAX_NEIGHBORS.
Proof. apply length_replicate. Qed.

Lemma wf_buffer_entry pts buf count k :
  wf_buffer pts buf count -> 0 <= k < count ->
  exists q, entry_at buf k = Some q /\ loaded pts q.
Proof.
  intros [Hlen Hall] Hk.
  destruct (lookup_lt_is_Some_2 buf (Z.to_nat k)) as [q Hq]; [lia|].
  exists q. split; [apply entry_at_Some; split; [lia | exact Hq]|].
  apply (Forall_lookup_1 _ _ (Z.to_nat k) _ Hall).
  unfold filled. rewrite lookup_take_lt by lia. exact Hq.
Qed.

Lemma wf_frame_entry pts f :
  wf_frame pts f -> ec_i f < ec_neighborCount f ->
  exists q, entry_at (ec_neighbors f) (ec_i f) = Some q /\ loaded pts q.
Proof.
  intros (_ & Hi & Hbuf & _) Hlt. eapply wf_buffer_entry; [exact Hbuf | lia].
Qed.

Lemma wf_frame_inside pts f :
  wf_frame pts f -> ec_at f <> AtAssign -> ec_at f <> AtExchange ->
  ec_i f < ec_neighborCount f.
Proof. intros (_ & _ & _ & _ & [H | [H | H]]) H1 H2; done. Qed.

Lemma mark_visited_xy p : x (mark_visited p) = x p /\ y (mark_visited p) = y p.
Proof. done. Qed.

Lemma assign_xy c p : x (assign c p) = x p /\ y (assign c p) = y p.
Proof. done. Qed.

Lemma wf_leave pts rest :
  Forall (wf_frame pts) rest -> wf_thread pts (leave rest).
Proof. destruct rest; [done|]. intros H. by split. Qed.

Lemma wf_goto pts f l :
  wf_frame pts f ->
  l = AtExchange \/ ec_i f < ec_neighborCount f ->
  wf_frame pts (goto f l).
Proof.
  intros (H1 & H2 & H3 & H4 & H5) Hl.
  split; [exact H1|]. split; [exact H2|]. split; [exact H3|].
  split; [exact H4|]. cbn. tauto.
Qed.

Lemma wf_next_neighbor pts f : wf_frame pts f -> wf_frame pts (next_neighbor f).
Proof.
  intros (H1 & H2 & H3 & H4 & H5).
  split; [exact H1|]. split; [cbn; lia|]. split; [exact H3|].
  split; [exact H4|]. cbn. tauto.
Qed.

Lemma wf_scanned pts f buf :
  wf_frame pts f -> length buf = Z.to_nat MAX_NEIGHBORS ->
  ec_i f < ec_neighborCount f ->
  wf_frame pts (scanned f buf).
Proof.
  intros (H1 & H2 & H3 & H4 & H5) Hlen Hlt.
  split; [exact H1|]. split; [exact H2|]. split; [exact H3|].
  split; [exact Hlen|]. cbn. tauto.
Qed.

Lemma wf_enter pts q buf count cid :
  loaded pts q -> wf_buffer pts buf count ->
  wf_frame pts (enter q buf count cid).
Proof.
  intros Hq Hbuf.
  split; [exact Hq|]. split; [cbn; lia|]. split; [exact Hbuf|].
  split; [apply length_fresh_buffer|]. cbn. tauto.
Qed.

Lemma thread_step_wf pts0 eps2 minPts st th st' th' ev :
  Forall2 evolves pts0 (points st) ->
  wf_thread pts0 th ->
  thread_step eps2 minPts st th = Some (st', th', ev) ->
  Forall2 evolves pts0 (points st') /\ wf_thread pts0 th'.
Proof.
  intros HF Hwf H. step_cases H.
  all: cbn [wf_thread] in Hwf.
  all: unfold set_visited, set_clusterId; cbn [points with_points].
  (* the innermost activation and its callers *)
  all: try match type of Hwf with
       | _ /\ Forall _ (_ :: _) =>
           let Hf := fresh "Hf" in
           let Hrest := fresh "Hrest" in
           destruct Hwf as [_ [Hf Hrest]%Forall_cons]
       end.
  (* the loop variable is below the count wherever the body is entered *)
  all: try match goal with
       | Hf : wf_frame _ ?f, Hb : (ec_i ?f <? ec_neighborCount ?f) = true |- _ =>
           apply Z.ltb_lt in Hb
       | Hf : wf_frame _ ?f, Hat : ec_at ?f = _ |- _ =>
           assert (ec_i f < ec_neighborCount f)
             by (apply (wf_frame_inside _ _ Hf); congruence)
       end.
  (* the neighbour at hand is a loaded point *)
  all: try match goal with
       | Hf : wf_frame _ ?f, He : entry_at (ec_neighbors ?f) (ec_i ?f) = Some ?q,
         Hlt : ec_i ?f < ec_neighborCount ?f |- _ =>
           assert (loaded pts0 q)
             by (destruct (wf_frame_entry _ _ Hf Hlt) as (q' & Hq' & ?);
                 congruence)
       end.
  (* the result of a scan is a well-formed array *)
  all: try match goal with
       | Hs : findNeighbors _ _ _ fresh_buffer _ = Some _ |- _ =>
           apply (findNeighbors_wf pts0 _ _ _ _ _ _ HF length_fresh_buffer) in Hs
             as [? ?]
       | Hf : wf_frame _ ?f,
         Hs : findNeighbors _ _ _ (ec_newNeighbors ?f) _ = Some _ |- _ =>
           apply (findNeighbors_wf pts0 _ _ _ _ _ _ HF
                    (proj1 (proj2 (proj2 (proj2 Hf))))) in Hs as [? ?]
       end.
  all: split.
  all: try assumption.
  all: try (apply evolves_alter;
            [ first [ apply mark_visited_xy | apply assign_xy ]
            | assumption
            | first [ assumption | apply Hf | apply Hwf ] ]).
  all: try (apply wf_leave; assumption).
  all: cbn [wf_thread]; try done.
  all: try (split; [done|]).
  all: repeat (apply Forall_cons; split); try assumption.
  all: try (by apply wf_next_neighbor).
  all: try (by apply wf_scanned).
  all: try (apply wf_goto; [assumption | first [by left | by right]]).
  all: try (apply wf_enter; first [assumption | apply Hwf]).
  all: try (split; [assumption | split; assumption]).
  all: try apply Forall_nil_2.
Qed.

(** ** A well-formed worker that holds a permit can always move *)

Lemma thread_progress pts0 eps2 minPts st th :
  Forall2 evolves pts0 (points st) ->
  wf_thread pts0 th ->
  idle th = false ->
  holds_permit th = 1%nat \/ 0 < thread_limiter st ->
  exists r, thread_step eps2 minPts st th = Some r.
Proof.
  intros HF Hwf Hidle Hperm.
  destruct th as [|index|index|index|index buf count|stack| |];
    cbn [wf_thread] in Hwf; try discriminate; cbn [thread_step].
  - destruct Hperm as [Hp | Hp]; [discriminate|].
    apply Z.ltb_lt in Hp. rewrite Hp. eauto.
  - destruct (loaded_now _ _ _ HF Hwf) as (p & -> & _). cbn.
    destruct (visited p); eauto.
  - destruct (loaded_now _ _ _ HF Hwf) as (p & -> & _). cbn.
    destruct (findNeighbors_runs (points st) p eps2 fresh_buffer
                length_fresh_buffer) as (buf' & count' & ->). cbn.
    destruct (minPts <=? count'); eauto.
  - eauto.
  - destruct Hwf as [Hne Hall]. destruct stack as [|f rest]; [done|].
    apply Forall_cons in Hall as [Hf _].
    unfold expandCluster_step.
    destruct (ec_at f) eqn:Hat.
    + destruct Hf as (Hl & _).
      destruct (loaded_now _ _ _ HF Hl) as (p & -> & _). cbn. eauto.
    + destruct (ec_i f <? ec_neighborCount f) eqn:Hlt; [|eauto].
      apply Z.ltb_lt in Hlt.
      destruct (wf_frame_entry _ _ Hf Hlt) as (q & -> & Hq). cbn.
      destruct (loaded_now _ _ _ HF Hq) as (p & -> & _). cbn.
      destruct (visited p); eauto.
    + assert (ec_i f < ec_neighborCount f) as Hlt
        by (apply (wf_frame_inside _ _ Hf); congruence).
      destruct (wf_frame_entry _ _ Hf Hlt) as (q & -> & Hq). cbn.
      destruct (loaded_now _ _ _ HF Hq) as (p & -> & _). cbn.
      destruct (findNeighbors_runs (points st) p eps2 (ec_newNeighbors f))
        as (buf' & count' & ->); [apply Hf|]. cbn.
      destruct (minPts <=? count'); eauto.
    + assert (ec_i f < ec_neighborCount f) as Hlt
        by (apply (wf_frame_inside _ _ Hf); congruence).
      destruct (wf_frame_entry _ _ Hf Hlt) as (q & -> & Hq). cbn.
      destruct (loaded_now _ _ _ HF Hq) as (p & -> & _). cbn.
      destruct (clusterId p =? 0); eauto.
    + assert (ec_i f < ec_neighborCount f) as Hlt
        by (apply (wf_frame_inside _ _ Hf); congruence).
      destruct (wf_frame_entry _ _ Hf Hlt) as (q & -> & Hq). cbn.
      destruct (loaded_now _ _ _ HF Hq) as (p & -> & _). cbn. eauto.
  - eauto.
Qed.

(** ** The owner of a slot *)

Lemma thread_step_owns pts0 eps2 minPts st th st' th' ev k :
  owns pts0 (points st) k th ->
  thread_step eps2 minPts st th = Some (st', th', ev) ->
  owns pts0 (points st') k th'.
Proof.
  intros Hown H.
  pose proof (thread_step_seen _ _ _ _ _ _ _ (Z.of_nat k) H) as Hmono.
  pose proof (seen_le_1 (points st') (Z.of_nat k)) as Hle.
  step_cases H.
  all: unfold leave.
  all: try match goal with |- context [match ?l with [] => _ | _ => _ end] =>
         destruct l end.
  all: cbn [owns] in *; subst; try done; try lia.
  - unfold seen. match goal with Hp : point_at _ _ = Some _ |- _ => rewrite Hp end.
    match goal with Hv : visited _ = true |- _ => by rewrite Hv end.
  - unfold set_visited; cbn [points with_points].
    erewrite seen_mark by eassumption. by rewrite decide_True.
Qed.

Lemma owns_mono pts0 pts pts' k th :
  (forall v, seen pts v <= seen pts' v)%nat ->
  owns pts0 pts k th -> owns pts0 pts' k th.
Proof.
  intros Hmono Hown.
  pose proof (Hmono (Z.of_nat k)). pose proof (seen_le_1 pts' (Z.of_nat k)).
  destruct th; cbn [owns] in *; try done; lia.
Qed.

(** ** Steps of the system *)

Lemma sum_list_with_zero {A} (f : A -> nat) (l : list A) :
  Forall (fun a => f a = 0%nat) l -> sum_list_with f l = 0%nat.
Proof.
  induction 1 as [|a l Ha _ IH]; [done|].
  rewrite sum_list_with_cons. lia.
Qed.

Lemma sum_list_with_pos {A} (f : A -> nat) (l : list A) :
  (0 < sum_list_with f l)%nat ->
  exists k a, l !! k = Some a /\ (0 < f a)%nat.
Proof.
  induction l as [|a l IH]; [cbn; lia|].
  rewrite sum_list_with_cons. intros H.
  destruct (decide (0 < f a)%nat) as [Ha|Ha].
  - by exists 0%nat, a.
  - destruct IH as (k & b & Hk & Hb); [lia|]. by exists (S k), b.
Qed.

Lemma spawn_from_lookup cells i k th :
  spawn_from cells i !! k = Some th ->
  exists c, cells !! k = Some c
            /\ th = if negb (unset c) then AtAcquire (i + Z.of_nat k)
                    else NotAThread.
Proof.
  revert i k. induction cells as [|c rest IH]; intros i [|k] H; simpl in H;
    try discriminate.
  - injection H as <-. exists c. split; [done|]. by rewrite Z.add_0_r.
  - destruct (IH _ _ H) as (c' & Hc' & ->). exists c'. split; [done|].
    by replace (i + 1 + Z.of_nat k) with (i + Z.of_nat (S k)) by lia.
Qed.

Lemma length_spawn_from cells i : length (spawn_from cells i) = length cells.
Proof. revert i. induction cells; intros i; simpl; [done|]. by rewrite IHcells. Qed.

Lemma spawn_from_fresh cells i :
  Forall (fun th => th = NotAThread \/ exists j, th = AtAcquire j)
         (spawn_from cells i).
Proof.
  revert i. induction cells as [|c rest IH]; intros i; simpl; [done|].
  apply Forall_cons. split; [|apply IH].
  destruct (negb (unset c)); eauto.
Qed.

Lemma invariant_start pts : invariant pts (dbscan_start pts).
Proof.
  pose proof (spawn_from_fresh pts 0) as Hfresh.
  split; cbn [dbscan_start store workers calls points thread_limiter].
  - apply Forall2_same_length_lookup. split; [done|].
    intros k a b Ha Hb. assert (a = b) as -> by congruence. apply evolves_refl.
  - apply Forall_lookup. intros k th Hth.
    destruct (spawn_from_lookup _ _ _ _ Hth) as (c & Hc & ->).
    destruct (unset c) eqn:Hu; cbn; [done|].
    exists c. split; [|done]. apply point_at_Some. split; [lia|].
    by replace (Z.to_nat (0 + Z.of_nat k)) with k by lia.
  - rewrite sum_list_with_zero; [lia|].
    eapply Forall_impl; [exact Hfresh|].
    intros th [-> | [j ->]]; done.
  - intros v. rewrite sum_list_with_zero; [cbn; lia|].
    eapply Forall_impl; [exact Hfresh|].
    intros th [-> | [j ->]]; done.
  - rewrite sum_list_with_zero; [cbn; lia|].
    eapply Forall_impl; [exact Hfresh|].
    intros th [-> | [j ->]]; done.
  - intros k th Hth.
    destruct (spawn_from_lookup _ _ _ _ Hth) as (c & Hc & ->).
    destruct (unset c) eqn:Hu; cbn; [by exists c | lia].
Qed.

Section Run.

Variable eps2 : float.
Variable minPts : Z.

Lemma run_thread_Some k c c' :
  run_thread eps2 minPts k c = Some c' ->
  exists th st' th' ev,
    workers c !! k = Some th
    /\ thread_step eps2 minPts (store c) th = Some (st', th', ev)
    /\ c' = {| store := st'; workers := <[k := th']> (workers c);
               calls := calls c ++ ev |}.
Proof.
  unfold run_thread. intros H.
destruct (workers c !! k) as [th|] eqn:Hk; [|discriminate]. cbn in H.
destruct (thread_step eps2 minPts (store c) th) as [[[st' th'] ev]|] eqn:Hs;
  [|discriminate].
cbn in H. injection H as <-. by exists th, st', th', ev.
Qed.

Lemma run_thread_intro k c th st' th' ev :
  workers c !! k = Some th ->
  thread_step eps2 minPts (store c) th = Some (st', th', ev) ->
  run_thread eps2 minPts k c
  = Some {| store := st'; workers := <[k := th']> (workers c);
            calls := calls c ++ ev |}.
Proof. intros Hk Hs. unfold run_thread. rewrite Hk. cbn. by rewrite Hs. Qed.

Lemma step_inv c c' :
  step eps2 minPts c c' ->
  exists k th st' th' ev,
    workers c !! k = Some th
    /\ thread_step eps2 minPts (store c) th = Some (st', th', ev)
    /\ c' = {| store := st'; workers := <[k := th']> (workers c);
               calls := calls c ++ ev |}.
Proof.
intros Hstep. destruct Hstep as [k c c' Hrun].
exists k. by apply run_thread_Some.
Qed.

Lemma step_measure c c' :
  step eps2 minPts c c' -> (measure c' < measure c)%nat.
Proof.
  intros (k & th & st' & th' & ev & Hk & Hs & ->)%step_inv.
  unfold measure; cbn [store workers].
  pose proof (thread_step_cost _ _ _ _ _ _ _ Hs).
  pose proof (sum_list_with_insert thread_cost _ _ _ th' Hk).
  lia.
Qed.

Lemma invariant_step pts0 c c' :
  invariant pts0 c -> step eps2 minPts c c' -> invariant pts0 c'.
Proof.
  intros [Hpts Hws Hperm Honce Hdepth Hown]
         (k & th & st' & th' & ev & Hk & Hs & ->)%step_inv.
  pose proof (Forall_lookup_1 _ _ _ _ Hws Hk) as Hth.
  destruct (thread_step_wf _ _ _ _ _ _ _ _ Hpts Hth Hs) as [Hpts' Hth'].
  split; cbn [store workers calls].
  - exact Hpts'.
  - by apply Forall_insert.
  - destruct (thread_step_permits _ _ _ _ _ _ _ Hs) as [Heq Hnn].
    pose proof (sum_list_with_insert holds_permit _ _ _ th' Hk).
    split; [tauto | lia].
  - intros v. specialize (Honce v).
    pose proof (thread_step_once _ _ _ _ _ _ _ v Hs).
    pose proof (sum_list_with_insert (awaits v) _ _ _ th' Hk).
    rewrite called_app. lia.
  - pose proof (thread_step_depth _ _ _ _ _ _ _ Hs).
    pose proof (sum_list_with_insert depth _ _ _ th' Hk).
    rewrite length_app. lia.
  - intros j thj Hj. destruct (decide (k = j)) as [<-|Hne].
    + rewrite list_lookup_insert_eq in Hj by (by eapply lookup_lt_Some).
      injection Hj as <-.
      eapply thread_step_owns; [by apply Hown | exact Hs].
    + rewrite list_lookup_insert_ne in Hj by exact Hne.
      eapply owns_mono; [|by apply Hown].
      intros v. eapply thread_step_seen, Hs.
Qed.

Lemma invariant_rtc pts0 c c' :
  invariant pts0 c -> rtc (step eps2 minPts) c c' -> invariant pts0 c'.
Proof. intros Hinv Hrun. induction Hrun; eauto using invariant_step. Qed.

(** A run takes no more steps than the measure of its first state. *)
Lemma nsteps_measure n c c' :
  nsteps (step eps2 minPts) n c c' -> (n + measure c' <= measure c)%nat.
Proof.
  induction 1 as [|n c c1 c' Hstep _ IH]; [lia|].
  apply step_measure in Hstep. lia.
Qed.

Lemma final_or_not c : final c \/ ~ final c.
Proof.
  unfold final.
  destruct (decide (Forall (fun th => idle th = true) (workers c))); tauto.
Qed.

(** As long as a worker has not returned, some worker can move. *)
Lemma progress pts0 c :
  invariant pts0 c -> ~ final c -> exists c', step eps2 minPts c c'.
Proof.
  intros [Hpts Hws [Hnn Hperm] _ _ _] Hnf.
  apply not_Forall_Exists in Hnf; [|intros th; apply _].
  apply Exists_exists in Hnf as (th & Hin & Hidle).
  apply list_elem_of_lookup in Hin as [k Hk].
  apply not_true_is_false in Hidle.
  assert (forall j thj, workers c !! j = Some thj -> idle thj = false ->
            holds_permit thj = 1%nat \/ 0 < thread_limiter (store c) ->
            exists c', step eps2 minPts c c') as Hmove.
  { intros j thj Hj Hi Hp.
    pose proof (Forall_lookup_1 _ _ _ _ Hws Hj) as Hwf.
    destruct (thread_progress pts0 eps2 minPts _ _ Hpts Hwf Hi Hp)
      as [[[st' th'] ev] Hs].
    eexists. eapply step_thread, run_thread_intro; eassumption. }
  destruct (decide (0 < thread_limiter (store c))) as [Hfree|Hnone].
  - eapply Hmove; eauto.
  - destruct (sum_list_with_pos holds_permit (workers c)) as (j & thj & Hj & Hh);
      [lia|].
    eapply (Hmove j thj Hj).
    + destruct thj; cbn in *; first [reflexivity | lia].
    + left. destruct thj; cbn in *; lia.
Qed.

(** Every run can be completed, and every way of running it ends. *)
Lemma completes pts0 c :
  invariant pts0 c -> exists c', rtc (step eps2 minPts) c c' /\ final c'.
Proof.
  remember (measure c) as m eqn:Hm. revert c Hm.
  induction m as [m IH] using lt_wf_ind. intros c -> Hinv.
  destruct (final_or_not c) as [Hf|Hnf].
  - exists c. split; [apply rtc_refl | exact Hf].
  - destruct (progress _ _ Hinv Hnf) as [c1 Hstep].
    destruct (IH (measure c1) (step_measure _ _ Hstep) c1 eq_refl
                 (invariant_step _ _ _ Hinv Hstep)) as (c' & Hrun & Hf).
    exists c'. split; [|exact Hf]. eapply rtc_l; eassumption.
Qed.

End Run.


(** ** Runs of [dbscan] *)

Lemma run_schedule_rtc eps2 minPts sched c c' :
  run_schedule eps2 minPts sched c = Some c' -> rtc (step eps2 minPts) c c'.
Proof.
  revert c. induction sched as [|k sched IH]; intros c H; simpl in H.
  - injection H as <-. apply rtc_refl.
  - destruct (run_thread eps2 minPts k c) as [c1|] eqn:Hk; [|discriminate].
    cbn in H. eapply rtc_l; [by eapply step_thread | by apply IH].
Qed.

Lemma run_to_rtc eps2 minPts sched c :
  rtc (step eps2 minPts) c (run_to eps2 minPts sched c).
Proof.
  unfold run_to.
  destruct (run_schedule eps2 minPts sched c) as [c'|] eqn:H; cbn.
  - by eapply run_schedule_rtc.
  - apply rtc_refl.
Qed.

Lemma run_to_reaches epsilon minPts sched pts :
  dbscan_reaches epsilon minPts pts
    (run_to (epsilon * epsilon) minPts sched (dbscan_start pts)).
Proof. apply run_to_rtc. Qed.

Lemma reaches_invariant epsilon minPts pts c :
  dbscan_reaches epsilon minPts pts c -> invariant pts c.
Proof. intros H. eapply invariant_rtc; [apply invariant_start | exact H]. Qed.

Lemma reaches_completes epsilon minPts pts c :
  dbscan_reaches epsilon minPts pts c ->
  exists c', dbscan_reaches epsilon minPts pts c' /\ final c'.
Proof.
  intros H.
  destruct (completes (epsilon * epsilon) minPts pts c
              (reaches_invariant _ _ _ _ H)) as (c' & Hrun & Hfinal).
  exists c'. split; [|exact Hfinal]. by eapply rtc_trans.
Qed.

(** The array [workers] keeps its size and its threads. *)
Lemma thread_step_started eps2 minPts st th st' th' ev :
  thread_step eps2 minPts st th = Some (st', th', ev) ->
  started th = 1%nat /\ started th' = 1%nat.
Proof.
  intros H. step_cases H.
  all: unfold leave.
  all: try match goal with |- context [match ?l with [] => _ | _ => _ end] =>
         destruct l end.
  all: by split.
Qed.

Lemma reaches_workers epsilon minPts pts c :
  dbscan_reaches epsilon minPts pts c ->
  length (workers c) = length pts
  /\ threads_started (workers c) = slots_set pts.
Proof.
  assert (forall cells i, threads_started (spawn_from cells i) = slots_set cells)
    as Hstart.
  { induction cells as [|p cells IH]; intros i; [reflexivity|].
    unfold threads_started, slots_set in *. cbn [spawn_from].
    rewrite !sum_list_with_cons, IH. by destruct (unset p). }
  intros H. revert c H. apply rtc_ind_r.
  - split; [apply length_spawn_from | apply Hstart].
  - intros c1 c2 _ Hstep [Hlen Hth].
    apply step_inv in Hstep as (k & th & st' & th' & ev & Hk & Hs & ->).
    cbn [workers]. split; [by rewrite length_insert|].
    destruct (thread_step_started _ _ _ _ _ _ _ Hs) as [H1 H2].
    pose proof (sum_list_with_insert started _ _ _ th' Hk) as Hsum.
    unfold threads_started in *. lia.
Qed.

(** ** What the invariant says about the history of calls *)

Lemma called_pos v l : (0 < called v l)%nat <-> v ∈ l.
Proof.
  unfold called. rewrite list_elem_of_In, (count_occ_In Z.eq_dec). lia.
Qed.

Lemma called_NoDup l : (forall v, (called v l <= 1)%nat) -> NoDup l.
Proof.
  intros H. apply NoDup_ListNoDup, (NoDup_count_occ Z.eq_dec). exact H.
Qed.

Lemma seen_visited pts v :
  (0 < seen pts v)%nat ->
  exists p, point_at pts v = Some p /\ visited p = true.
Proof.
  unfold seen. destruct (point_at pts v) as [p|]; [|lia].
  destruct (visited p) eqn:Hv; [|lia]. intros _. by exists p.
Qed.

Lemma seen_flag pts (k : nat) :
  seen pts (Z.of_nat k) = 1%nat -> visited <$> pts !! k = Some true.
Proof.
  intros H. destruct (seen_visited pts (Z.of_nat k)) as (p & Hp & Hv); [lia|].
  apply point_at_Some in Hp as [_ Hp]. rewrite Nat2Z.id in Hp.
  by rewrite Hp; cbn; rewrite Hv.
Qed.

(** A list without repetition of indices of an array is no longer than the
    array. *)
Lemma NoDup_indices_length (l : list Z) (n : nat) :
  NoDup l -> (forall v, v ∈ l -> 0 <= v < Z.of_nat n) -> (length l <= n)%nat.
Proof.
  intros Hnd Hin.
  assert (l ⊆+ seqZ 0 (Z.of_nat n)) as Hsub.
  { apply NoDup_submseteq; [exact Hnd|]. intros v Hv.
    apply elem_of_seqZ. specialize (Hin v Hv). lia. }
  apply submseteq_length in Hsub. rewrite length_seqZ in Hsub. lia.
Qed.

(** A step that invokes [expandCluster] for [q] is taken by the worker that
    holds [q] pending, that is, by the worker whose exchange found [q]
    unvisited. *)
Lemma thread_step_call eps2 minPts st th st' th' ev :
  thread_step eps2 minPts st th = Some (st', th', ev) ->
  ev = [] \/ exists q, ev = [q] /\ (0 < awaits q th)%nat.
Proof.
  intros H. step_cases H; try (by left).
  - right. eexists. split; [reflexivity|].
    unfold awaits; cbn [pending]. rewrite called_one, decide_True by done. lia.
  - right. eexists. split; [reflexivity|].
    rewrite awaits_push. unfold frame_pending.
    repeat match goal with
    | H : ec_at _ = _ |- _ => rewrite H
    | H : entry_at _ _ = Some _ |- _ => rewrite H
    end.
    rewrite called_one, decide_True by done. lia.
Qed.

(** The lines [main] writes keep the coordinates and the order of the
    slots, whatever the run did. *)
Lemma output_coords pts0 pts :
  Forall2 evolves pts0 pts ->
  (output pts).*1 = (output pts0).*1.
Proof.
  induction 1 as [|p0 p pts0 pts He _ IH]; [reflexivity|].
  cbn [output]. rewrite (evolves_unset _ _ He).
  destruct (unset p0); cbn; [exact IH|].
  destruct He as (-> & -> & _). by rewrite IH.
Qed.

(** [final] can be decided by running [idle] over the workers. *)
Lemma final_by_test c : forallb idle (workers c) = true -> final c.
Proof.
  unfold final. induction (workers c) as [|th ws IH]; cbn; [constructor|].
  intros [H1 H2]%andb_true_iff. constructor; [exact H1 | by apply IH].
Qed.

(** * The claims *)

(** ** The neighbour scan (C10, C3, C5) *)

Lemma within_from_length cells i point eps2 :
  (length (within_from cells i point eps2) <= length cells)%nat.
Proof.
  revert i. induction cells as [|c rest IH]; intros i; simpl; [lia|].
  specialize (IH (i + 1)). destruct (negb (unset c) && _); simpl; lia.
Qed.

(** [within] lists exactly the slots that are not taken for empty and lie
    within [epsilonSquared] of [point]. *)
Lemma within_from_spec cells i point eps2 v :
  v ∈ within_from cells i point eps2 <->
  exists c, cells !! Z.to_nat (v - i) = Some c /\ i <= v
            /\ unset c = false
            /\ PrimFloat.leb (squaredDistance point c) eps2 = true.
Proof.
  revert i. induction cells as [|c rest IH]; intros i; simpl.
  - split; [intros H; inversion H | intros (c & H & _); discriminate].
  - assert ((exists c0, (c :: rest) !! Z.to_nat (v - i) = Some c0 /\ i <= v
                        /\ unset c0 = false
                        /\ PrimFloat.leb (squaredDistance point c0) eps2 = true)
            <-> (v = i /\ unset c = false
                 /\ PrimFloat.leb (squaredDistance point c) eps2 = true)
                \/ v ∈ within_from rest (i + 1) point eps2) as ->.
    { rewrite IH. split.
      - intros (c0 & H1 & H2 & H3 & H4).
        destruct (decide (v = i)) as [->|Hne].
        + left. replace (Z.to_nat (i - i)) with 0%nat in H1 by lia.
          simpl in H1. injection H1 as ->. done.
        + right. exists c0.
          replace (Z.to_nat (v - i)) with (S (Z.to_nat (v - (i + 1)))) in H1
            by lia.
          simpl in H1. split; [exact H1|]. split; [lia|]. done.
      - intros [(-> & H3 & H4) | (c0 & H1 & H2 & H3 & H4)].
        + exists c. replace (Z.to_nat (i - i)) with 0%nat by lia.
          split; [reflexivity|]. split; [lia|]. done.
        + exists c0.
          replace (Z.to_nat (v - i)) with (S (Z.to_nat (v - (i + 1)))) by lia.
          split; [exact H1|]. split; [lia|]. done. }
    destruct (unset c) eqn:Hu; simpl.
    + split; [by right | intros [(_ & ? & _) | H]; [discriminate | done]].
    + destruct (PrimFloat.leb (squaredDistance point c) eps2) eqn:Hd.
      * rewrite elem_of_cons. split.
        -- intros [-> | H]; [by left | by right].
        -- intros [(-> & _) | H]; [by left | by right].
      * split; [by right | intros [(_ & _ & ?) | H]; [discriminate | done]].
Qed.

(** C10. A call of [findNeighbors] whose array has room for [maxNeighbors]
    entries performs no write outside the array (the call yields a result),
    returns a count between [0] and [maxNeighbors], leaves every entry from
    index [count] on as it was, so that what it wrote lies at the indices
    [0 .. count-1], and every entry below [count] is a point index in
    [[0, MAX_POINTS)]. *)
Theorem findNeighbors_within_capacity
    (points : list Point) (point : Point) (epsilonSquared : float)
    (neighbors : list Z) (maxNeighbors : Z) :
  length points = Z.to_nat MAX_POINTS ->
  0 <= maxNeighbors <= Z.of_nat (length neighbors) ->
  exists neighbors' count,
    findNeighbors points point epsilonSquared neighbors maxNeighbors
    = Some (neighbors', count)
    /\ 0 <= count <= maxNeighbors
    /\ length neighbors' = length neighbors
    /\ (forall k : nat, count <= Z.of_nat k -> neighbors' !! k = neighbors !! k)
    /\ (forall k, 0 <= k < count ->
          exists v, entry_at neighbors' k = Some v /\ 0 <= v < MAX_POINTS).
Proof.
  intros Hpts [Hm0 Hm].
  destruct (findNeighbors_spec points point epsilonSquared neighbors
              maxNeighbors Hm)
    as (buf' & count & Hrun & Hcount & Hlen & Hfill & Hrest).
  exists buf', count. split; [exact Hrun|].
  assert (0 <= count <= maxNeighbors) as Hc
    by (rewrite Hcount, length_take; lia).
  split; [exact Hc|]. split; [exact Hlen|]. split; [exact Hrest|].
  intros k Hk.
  destruct (lookup_lt_is_Some_2 buf' (Z.to_nat k)) as [v Hv]; [lia|].
  exists v. split; [apply entry_at_Some; split; [lia | exact Hv]|].
  assert (v ∈ within points point epsilonSquared) as Hin.
  { eapply in_take. rewrite <- Hfill.
    apply list_elem_of_lookup. exists (Z.to_nat k).
    unfold filled. rewrite lookup_take_lt by lia. exact Hv. }
  apply within_from_range in Hin. unfold MAX_POINTS in *. lia.
Qed.

Lemma findNeighbors_within_capacity_witness :
  exists neighbors' count,
    findNeighbors (load two_groups).1 (newPoint 10 0) 6.25 fresh_buffer
                  MAX_NEIGHBORS
    = Some (neighbors', count)
    /\ 0 <= count <= MAX_NEIGHBORS
    /\ length neighbors' = length fresh_buffer
    /\ (forall k : nat, count <= Z.of_nat k -> neighbors' !! k = fresh_buffer !! k)
    /\ (forall k, 0 <= k < count ->
          exists v, entry_at neighbors' k = Some v /\ 0 <= v < MAX_POINTS).
Proof.
  apply findNeighbors_within_capacity.
  - vm_compute. reflexivity.
  - rewrite length_fresh_buffer. unfold MAX_NEIGHBORS. lia.
Defined.

(** The accepted indices come in increasing order. *)
Lemma within_from_sorted cells i point eps2 :
  StronglySorted Z.lt (within_from cells i point eps2).
Proof.
  revert i. induction cells as [|c rest IH]; intros i; cbn [within_from].
  - constructor.
  - destruct (negb (unset c) && _); [|apply IH].
    constructor; [apply IH|].
    apply Forall_forall. intros v Hv%within_from_range. lia.
Qed.

(** The accepted indices, by their slots. *)
Lemma within_spec points point eps2 v :
  v ∈ within points point eps2 <->
  exists c, point_at points v = Some c /\ unset c = false
            /\ PrimFloat.leb (squaredDistance point c) eps2 = true.
Proof.
  unfold within. rewrite within_from_spec. rewrite Z.sub_0_r.
  split.
  - intros (c & Hc & H0 & Hu & Hd). exists c.
    split; [by apply point_at_Some|]. by split.
  - intros (c & [H0 Hc]%point_at_Some & Hu & Hd). by exists c.
Qed.








(** C5 fails on the program. The input holds the two points [(0, 0)] and
    [(1, 1)]; both are loaded. Each lies within squared distance [4] of
    [(0, 0)], and of [(1, 1)]. The query for either point returns the index
    [1] alone: the point at the origin is left out of its own neighbourhood
    and of its neighbour's, because the scan takes a slot with two zero
    coordinates for one that was never loaded. *)
Theorem origin_is_skipped :
  let pts := (load with_origin).1 in
  let o := newPoint 0 0 in
  let a := newPoint 1 1 in
  (load with_origin).2 = 2
  /\ pts !! 0%nat = Some o /\ pts !! 1%nat = Some a
  /\ PrimFloat.leb (squaredDistance o o) 4 = true
  /\ PrimFloat.leb (squaredDistance a o) 4 = true
  /\ observed (findNeighbors pts o 4 fresh_buffer MAX_NEIGHBORS)
     = Some (Neighbors [1])
  /\ observed (findNeighbors pts a 4 fresh_buffer MAX_NEIGHBORS)
     = Some (Neighbors [1]).
Proof.
  cbv zeta.
  repeat match goal with |- _ /\ _ => split end; vm_compute; reflexivity.
Qed.

(** Closed facts about concrete runs are settled by evaluation, one
    conjunct at a time. *)
Ltac by_evaluation :=
  repeat match goal with |- _ /\ _ => split end;
  vm_compute; reflexivity.

(** ** Claiming a point for a cluster (C1, C2) *)

(** C1 fails on the program. The claim of a point is the read of line 81
    followed by the write of line 82, and other workers can step in
    between. In the run below ([epsilon = 2.5], [minPts = 4], the input
    [two_groups]) the workers of points 1 and 4 expand the clusters 1 and 2
    and both reach point 0. Each of them has read the label [0] and stands
    before its write. Worker 1 writes: point 0 is in cluster 1. Worker 4
    writes: point 0 is in cluster 2. Both claims succeed, and the second
    one replaces the label the first one has set. *)
Theorem both_claims_succeed :
  let start := dbscan_start (load two_groups).1 in
  let both := (replicate 8 1 ++ replicate 7 4)%nat in
  let c0 := run_to (2.5 * 2.5) 4 both start in
  let c1 := run_to (2.5 * 2.5) 4 (both ++ [1])%nat start in
  let c2 := run_to (2.5 * 2.5) 4 (both ++ [1; 4])%nat start in
  dbscan_reaches 2.5 4 (load two_groups).1 c2
  /\ run_thread (2.5 * 2.5) 4 1 c0 = Some c1
  /\ run_thread (2.5 * 2.5) 4 4 c1 = Some c2
  /\ label c0 0 = Some 0
  /\ standing c0 1 = Some (AtStore, 1, 1, Some 0)
  /\ standing c0 4 = Some (AtStore, 4, 2, Some 0)
  /\ label c1 0 = Some 1
  /\ standing c1 4 = Some (AtStore, 4, 2, Some 0)
  /\ label c2 0 = Some 2.
Proof.
  cbv zeta. split; [apply run_to_reaches|].
  by_evaluation.
Qed.

(** C2 fails on the program. In the run below ([epsilon = 2.5],
    [minPts = 2], the input [three_in_a_row]) worker 0 has found point 1
    unvisited, marked it and entered [expandCluster] for it with cluster 1;
    it stands before the assignment of line 64. Meanwhile worker 2 has
    absorbed point 1 into cluster 2. Worker 0 then performs its
    assignment, which tests nothing: the label of point 1 changes from
    cluster 2 to cluster 1. *)
Theorem label_changes_cluster :
  let start := dbscan_start (load three_in_a_row).1 in
  let before := (replicate 9 0 ++ replicate 10 2)%nat in
  let c1 := run_to (2.5 * 2.5) 2 before start in
  let c2 := run_to (2.5 * 2.5) 2 (before ++ [0])%nat start in
  dbscan_reaches 2.5 2 (load three_in_a_row).1 c2
  /\ run_thread (2.5 * 2.5) 2 0 c1 = Some c2
  /\ standing c1 0 = Some (AtAssign, 1, 1, Some 0)
  /\ label c1 1 = Some 2
  /\ label c2 1 = Some 1.
Proof.
  cbv zeta. split; [apply run_to_reaches|].
  by_evaluation.
Qed.

(** ** The configuration (C4) *)

(** C4 as stated fails. With [epsilon = -1] and [minPts = 0], which the
    check of the specification rejects, the workers are started; after
    five steps of worker 0 the first point is visited and is in
    cluster 1. *)
Lemma bad_configuration_runs :
  let c := run_to ((-1) * (-1)) 0 (replicate 5 0%nat)
                  (dbscan_start (load three_in_a_row).1) in
  spec_config_ok (-1) 0 = false
  /\ dbscan_reaches (-1) 0 (load three_in_a_row).1 c
  /\ flag c 0 = Some true
  /\ label c 0 = Some 1.
Proof.
  cbv zeta. split; [vm_compute; reflexivity|].
  split; [apply run_to_reaches|].
  by_evaluation.
Qed.

(** C4, amended. [dbscan] checks neither [epsilon] nor [minPts]: whatever
    their values, every run can be completed, and when all the workers
    have returned every point whose coordinates are not both zero has been
    visited. *)
Theorem dbscan_runs_for_every_configuration
    (epsilon : float) (minPts : Z) (pts : list Point) :
  (exists c, dbscan_reaches epsilon minPts pts c /\ final c)
  /\ (forall c, dbscan_reaches epsilon minPts pts c -> final c ->
      forall k p, pts !! k = Some p -> unset p = false ->
                  flag c k = Some true).
Proof.
  split.
  - apply (reaches_completes epsilon minPts pts (dbscan_start pts)).
    apply rtc_refl.
  - intros c Hrun Hfinal k p Hp Hu.
    destruct (reaches_workers _ _ _ _ Hrun) as [Hlen _].
    destruct (lookup_lt_is_Some_2 (workers c) k) as [th Hth].
    { rewrite Hlen. by eapply lookup_lt_Some. }
    pose proof (inv_owns _ _ (reaches_invariant _ _ _ _ Hrun) k th Hth) as Hown.
    pose proof (Forall_lookup_1 _ _ _ _ Hfinal Hth) as Hidle.
    destruct th; try discriminate; cbn [owns] in Hown.
    + destruct Hown as (p' & Hp' & Hu'). congruence.
    + by apply seen_flag.
Qed.

Lemma dbscan_runs_for_every_configuration_witness :
  let pts := (load three_in_a_row).1 in
  (pts !! 1%nat = Some (newPoint 2 1) /\ unset (newPoint 2 1) = false)
  /\ (forall c, dbscan_reaches (-1) 0 pts c -> final c ->
      flag c 1 = Some true).
Proof.
  cbv zeta.
  assert ((load three_in_a_row).1 !! 1%nat = Some (newPoint 2 1)) as Hp
    by (vm_compute; reflexivity).
  assert (unset (newPoint 2 1) = false) as Hu by (vm_compute; reflexivity).
  split; [by split|].
  intros c Hrun Hfinal.
  exact (proj2 (dbscan_runs_for_every_configuration (-1) 0 _)
               c Hrun Hfinal 1%nat _ Hp Hu).
Defined.

(** ** The lines written (C6) *)

(** C6 fails on the program. The input holds the two points [(0, 0)] and
    [(1, 1)]; the reading loop loads both. Whatever the run of
    [dbscan(2.5, 2)] did, the writing loop writes one line, for [(1, 1)]:
    the point at the origin is taken for a slot that was never loaded. *)
Theorem origin_is_not_written :
  (load with_origin).2 = 2
  /\ forall c, dbscan_reaches 2.5 2 (load with_origin).1 c ->
               (output (points (store c))).*1 = [(1, 1)%float].
Proof.
  split; [vm_compute; reflexivity|].
  intros c Hrun.
  rewrite (output_coords _ _ (inv_points _ _ (reaches_invariant _ _ _ _ Hrun))).
  vm_compute. reflexivity.
Qed.

Lemma origin_is_not_written_witness :
  let c := run_to (2.5 * 2.5) 2 (replicate 4 1%nat)
                  (dbscan_start (load with_origin).1) in
  dbscan_reaches 2.5 2 (load with_origin).1 c
  /\ (output (points (store c))).*1 = [(1, 1)%float].
Proof.
  cbv zeta. split; [apply run_to_reaches|].
  apply (proj2 origin_is_not_written). apply run_to_reaches.
Defined.

(** ** The workers (C7) *)

(** C7 as stated fails. For seventeen loaded points [dbscan] starts
    seventeen threads, one more than the semaphore has permits. *)
Lemma one_thread_per_point :
  let c := dbscan_start (load seventeen).1 in
  (load seventeen).2 = 17
  /\ thread_limiter (store c) = 16
  /\ threads_started (workers c) = 17%nat.
Proof. cbv zeta. by_evaluation. Qed.

(** C7, amended. [dbscan] starts one thread for every slot whose
    coordinates are not both zero, so the number of threads grows with the
    input; none is added or removed later. What is bounded is the number
    of workers between the acquire and the release of [processPoint]: at
    most 16 at any time, and the permits left are 16 less that number. *)
Theorem threads_per_point_sixteen_at_work
    (epsilon : float) (minPts : Z) (pts : list Point) (c : Config) :
  dbscan_reaches epsilon minPts pts c ->
  length (workers c) = length pts
  /\ threads_started (workers c) = slots_set pts
  /\ (sum_list_with holds_permit (workers c) <= 16)%nat
  /\ thread_limiter (store c)
     = 16 - Z.of_nat (sum_list_with holds_permit (workers c)).
Proof.
  intros Hrun.
  destruct (reaches_workers _ _ _ _ Hrun) as [Hlen Hth].
  destruct (inv_permits _ _ (reaches_invariant _ _ _ _ Hrun)) as [Hnn Hsum].
  split; [exact Hlen|]. split; [exact Hth|]. split; lia.
Qed.

(** Seventeen points, each far from the others. After the first sixteen
    workers have acquired a permit none is left, and worker 16, which
    stands before its acquire, has no step. Once worker 0 has returned
    (three more steps) worker 16 gets its permit. The threads are
    seventeen throughout. *)
Lemma threads_per_point_sixteen_at_work_witness :
  let pts := (load seventeen).1 in
  let start := dbscan_start pts in
  let c := run_to (2.5 * 2.5) 2 (seq 0 16) start in
  let c' := run_to (2.5 * 2.5) 2 (seq 0 16 ++ [0; 0; 0; 16])%nat start in
  run_schedule (2.5 * 2.5) 2 (seq 0 16) start = Some c
  /\ run_schedule (2.5 * 2.5) 2 [0; 0; 0; 16]%nat c = Some c'
  /\ slots_set pts = 17%nat
  /\ (threads_started (workers c) = 17%nat
      /\ sum_list_with holds_permit (workers c) = 16%nat
      /\ thread_limiter (store c) = 0
      /\ workers c !! 16%nat = Some (AtAcquire 16)
      /\ run_thread (2.5 * 2.5) 2 16 c = None)
  /\ (threads_started (workers c') = 17%nat
      /\ sum_list_with holds_permit (workers c') = 16%nat
      /\ thread_limiter (store c') = 0
      /\ workers c' !! 0%nat = Some Returned
      /\ workers c' !! 16%nat = Some (AtVisit 16))
  /\ (dbscan_reaches 2.5 2 pts c
      /\ length (workers c) = length pts
      /\ threads_started (workers c) = slots_set pts
      /\ (sum_list_with holds_permit (workers c) <= 16)%nat
      /\ thread_limiter (store c)
         = 16 - Z.of_nat (sum_list_with holds_permit (workers c)))
  /\ (dbscan_reaches 2.5 2 pts c'
      /\ length (workers c') = length pts
      /\ threads_started (workers c') = slots_set pts
      /\ (sum_list_with holds_permit (workers c') <= 16)%nat
      /\ thread_limiter (store c')
         = 16 - Z.of_nat (sum_list_with holds_permit (workers c'))).
Proof.
  cbv zeta.
  split; [vm_compute; reflexivity|].
  split; [vm_compute; reflexivity|].
  split; [vm_compute; reflexivity|].
  split; [by_evaluation|].
  split; [by_evaluation|].
  split.
  - split; [apply run_to_reaches|].
    apply (threads_per_point_sixteen_at_work 2.5 2). apply run_to_reaches.
  - split; [apply run_to_reaches|].
    apply (threads_per_point_sixteen_at_work 2.5 2). apply run_to_reaches.
Defined.

(** ** Degenerate epsilon (C8) *)

(** C8 fails on the program. With [epsilon = 0] and [minPts = 1] and the
    two distinct points [(0, 0)] and [(1, 1)], every run can be completed,
    and in every state of every run the point at the origin has the label
    [0] and is not visited: no worker is started for it and no scan
    returns it, so it never becomes a cluster of its own. *)
Theorem origin_gets_no_cluster :
  (load with_origin).2 = 2
  /\ (exists c, dbscan_reaches 0 1 (load with_origin).1 c /\ final c)
  /\ (forall c, dbscan_reaches 0 1 (load with_origin).1 c ->
      label c 0 = Some 0 /\ flag c 0 = Some false).
Proof.
  split; [vm_compute; reflexivity|]. split.
  - apply (reaches_completes 0 1 _ (dbscan_start (load with_origin).1)).
    apply rtc_refl.
  - intros c Hrun.
    pose proof (inv_points _ _ (reaches_invariant _ _ _ _ Hrun)) as HF.
    assert ((load with_origin).1 !! 0%nat = Some (newPoint 0 0)) as Hp0
      by (vm_compute; reflexivity).
    destruct (Forall2_lookup_l _ _ _ _ _ HF Hp0) as (p & Hp & _ & _ & Hsame).
    rewrite (Hsame eq_refl) in Hp.
    unfold label, flag. by rewrite Hp.
Qed.

Lemma origin_gets_no_cluster_witness :
  let c := run_to (0 * 0) 1 (replicate 9 1%nat)
                  (dbscan_start (load with_origin).1) in
  dbscan_reaches 0 1 (load with_origin).1 c
  /\ final c
  /\ label c 1 = Some 1
  /\ label c 0 = Some 0 /\ flag c 0 = Some false.
Proof.
  cbv zeta. split; [apply run_to_reaches|].
  split; [apply final_by_test; vm_compute; reflexivity|].
  split; [vm_compute; reflexivity|].
  apply (proj2 (proj2 origin_gets_no_cluster)). apply run_to_reaches.
Defined.

(** ** Termination of the expansion (C9) *)

(** C9. In every state of every run: no point occurs twice in the history
    of the invocations of [expandCluster], and every point in it is
    visited; so the invocations are at most as many as the array has
    slots, and so are the activations on the stacks of all workers
    together. An invocation for [q] is made only by the worker that holds
    [q] pending, the one whose exchange found [q] unvisited, and [q] was
    not invoked before. From the state on, every run takes at most
    [measure c] steps, and the run can be completed: all workers
    return. *)
Theorem expandCluster_once_per_point
    (epsilon : float) (minPts : Z) (pts : list Point) (c : Config) :
  dbscan_reaches epsilon minPts pts c ->
  NoDup (calls c)
  /\ (forall q, q ∈ calls c ->
        exists p, point_at (points (store c)) q = Some p /\ visited p = true)
  /\ (length (calls c) <= length pts)%nat
  /\ (sum_list_with depth (workers c) <= length (calls c))%nat
  /\ (forall k c' q,
        run_thread (epsilon * epsilon) minPts k c = Some c' ->
        calls c' = calls c ++ [q] ->
        (q ∉ calls c)
        /\ exists th, workers c !! k = Some th /\ awaits q th = 1%nat)
  /\ (forall n c', nsteps (dbscan_step epsilon minPts) n c c' ->
        (n <= measure c)%nat)
  /\ (exists c', rtc (dbscan_step epsilon minPts) c c' /\ final c').
Proof.
  intros Hrun.
  pose proof (reaches_invariant _ _ _ _ Hrun) as Hinv.
  destruct Hinv as [Hpts Hws Hperm Honce Hdepth Hown].
  assert (forall q, (called q (calls c) <= seen (points (store c)) q)%nat)
    as Hcalled by (intros q; specialize (Honce q); lia).
  assert (forall q, q ∈ calls c ->
            exists p, point_at (points (store c)) q = Some p
                      /\ visited p = true) as Hvisited.
  { intros q Hq%called_pos. apply seen_visited.
    specialize (Hcalled q). lia. }
  assert (NoDup (calls c)) as Hnd.
  { apply called_NoDup. intros q.
    pose proof (Hcalled q). pose proof (seen_le_1 (points (store c)) q). lia. }
  split; [exact Hnd|]. split; [exact Hvisited|]. split.
  { apply NoDup_indices_length; [exact Hnd|].
    intros q Hq. destruct (Hvisited q Hq) as (p & [H0 Hp]%point_at_Some & _).
    apply lookup_lt_Some in Hp.
    rewrite (Forall2_length _ _ _ Hpts). lia. }
  split; [exact Hdepth|]. split.
  { intros k c' q (th & st' & th' & ev & Hk & Hs & ->)%run_thread_Some Hcalls.
    cbn [calls] in Hcalls. apply app_inv_head in Hcalls. subst ev.
    destruct (thread_step_call _ _ _ _ _ _ _ Hs) as [? | (q' & Heq & Hpos)];
      [discriminate|].
    injection Heq as <-.
    pose proof (Honce q) as Hq.
    pose proof (seen_le_1 (points (store c)) q).
    pose proof (sum_list_with_insert (awaits q) _ _ _ th Hk) as Hsum.
    rewrite list_insert_id in Hsum by exact Hk.
    assert (awaits q th <= sum_list_with (awaits q) (workers c))%nat.
    { apply sum_list_with_in. by eapply list_elem_of_lookup_2. }
    split.
    - intros Hin%called_pos. lia.
    - exists th. split; [exact Hk | lia]. }
  split.
  { intros n c' Hn. apply nsteps_measure in Hn. lia. }
  apply (completes (epsilon * epsilon) minPts pts c).
  by split.
Qed.

Lemma expandCluster_once_per_point_witness :
  let pts := (load three_in_a_row).1 in
  let c := run_to (2.5 * 2.5) 2 (replicate 9 0 ++ replicate 10 2)%nat
                  (dbscan_start pts) in
  dbscan_reaches 2.5 2 pts c
  /\ calls c = [0; 1; 2]
  /\ NoDup (calls c)
  /\ (length (calls c) <= length pts)%nat
  /\ (exists c', rtc (dbscan_step 2.5 2) c c' /\ final c').
Proof.
  cbv zeta. split; [apply run_to_reaches|].
  split; [vm_compute; reflexivity|].
  pose proof (expandCluster_once_per_point 2.5 2 (load three_in_a_row).1 _
                (run_to_reaches 2.5 2 (replicate 9 0 ++ replicate 10 2)%nat
                                (load three_in_a_row).1))
    as (H1 & _ & H3 & _ & _ & _ & H7).
  split; [exact H1|]. split; [exact H3 | exact H7].
Defined.

(** * Further properties of the program *)

(** ** The reading loop of [main] *)

Lemma load_from_spec input :
  forall (done : list Point) (n : nat),
    (length done + n)%nat = Z.to_nat MAX_POINTS ->
    load_from input (done ++ replicate n defaultPoint) (Z.of_nat (length done))
    = (done ++ (point_of <$> take n input)
            ++ replicate (n - length input) defaultPoint,
       Z.of_nat (length done + min n (length input))).
Proof.
  induction input as [|[a b] input IH]; intros done n Hlen; cbn [load_from].
  - rewrite take_nil, Nat.sub_0_r, Nat.min_0_r, Nat.add_0_r. reflexivity.
  - destruct (Z.of_nat (length done) <? MAX_POINTS) eqn:Hlt.
    + apply Z.ltb_lt in Hlt.
      destruct n as [|n]; [lia|].
      rewrite Nat2Z.id.
      replace (length done) with (length done + 0)%nat at 1 by lia.
      rewrite insert_app_r. cbn [replicate].
      change (<[0%nat := newPoint a b]> (defaultPoint :: replicate n defaultPoint))
        with (newPoint a b :: replicate n defaultPoint).
      replace (Z.of_nat (length done) + 1)
        with (Z.of_nat (length (done ++ [newPoint a b])))
        by (rewrite length_app; cbn; lia).
      rewrite (cons_middle (newPoint a b)), app_assoc.
      rewrite IH by (rewrite length_app; cbn; lia).
      rewrite length_app. cbn [length take fmap list_fmap].
      rewrite <- app_assoc. cbn [app].
      f_equal. f_equal. lia.
    + apply Z.ltb_ge in Hlt.
      assert (n = 0%nat) as -> by lia.
      cbn. rewrite Nat.add_0_r. reflexivity.
Qed.

(** The array after the reading loop. *)
Lemma load_array (input : list (float * float)) :
  let n := Z.to_nat MAX_POINTS in
  (load input).1
  = (point_of <$> take n input) ++ replicate (n - length input) defaultPoint
  /\ (load input).2 = Z.min (Z.of_nat (length input)) MAX_POINTS
  /\ length (load input).1 = n.
Proof.
  cbv zeta.
  pose proof (load_from_spec input [] (Z.to_nat MAX_POINTS) eq_refl) as H.
  change (Z.of_nat (length (@nil Point))) with 0 in H.
  cbn [app length Nat.add] in H.
  unfold load, no_points. rewrite H. cbn [fst snd].
  split; [reflexivity|]. split.
  - unfold MAX_POINTS. lia.
  - rewrite length_app, length_fmap, length_take, length_replicate. lia.
Qed.

(** X1. The reading loop fills the first slots of the array with the
    points of the input, in order, and stops after [MAX_POINTS] of them:
    the array keeps its [MAX_POINTS] slots, those after the loaded points
    stay as they were constructed, and [pointCount] is the number of pairs
    read or [MAX_POINTS], whichever is smaller. *)
Theorem load_fills_first_slots (input : list (float * float)) :
  let n := Z.to_nat MAX_POINTS in
  (load input).1
  = (point_of <$> take n input) ++ replicate (n - length input) defaultPoint
  /\ (load input).2 = Z.min (Z.of_nat (length input)) MAX_POINTS
  /\ length (load input).1 = n.
Proof. exact (load_array input). Qed.

(** ** The writing loop of [main] *)

Lemma output_app l1 l2 : output (l1 ++ l2) = output l1 ++ output l2.
Proof.
  induction l1 as [|p l1 IH]; [reflexivity|].
  cbn [app output]. rewrite IH. by destruct (unset p).
Qed.

Lemma output_no_points n : output (replicate n defaultPoint) = [].
Proof. induction n as [|n IH]; [reflexivity|]. exact IH. Qed.

Lemma output_loaded (l : list (float * float)) :
  (output (point_of <$> l)).*1 = List.filter (fun ab => negb (at_origin ab)) l.
Proof.
  induction l as [|[a b] l IH]; [reflexivity|].
  cbn [fmap list_fmap output List.filter].
  change (unset (point_of (a, b))) with (at_origin (a, b)).
  destruct (at_origin (a, b)); cbn; [exact IH|]. by rewrite <- IH.
Qed.


(** ** More on the neighbour scan *)

Lemma StronglySorted_take (l : list Z) (n : nat) :
  StronglySorted Z.lt l -> StronglySorted Z.lt (take n l).
Proof.
  revert n. induction l as [|a l IH]; intros [|n] Hs; cbn; try constructor.
  - apply IH. by inversion Hs.
  - inversion Hs as [|? ? _ Hall]; subst.
    apply Forall_forall. intros v Hv%in_take.
    by eapply Forall_forall in Hall.
Qed.

(** X3. The indices a call of [findNeighbors] returns are strictly
    increasing: the scan reports every slot at most once and in the order
    of the array. *)
Theorem findNeighbors_increasing
    (points : list Point) (point : Point) (epsilonSquared : float)
    (neighbors neighbors' : list Z) (maxNeighbors count : Z) :
  maxNeighbors <= Z.of_nat (length neighbors) ->
  findNeighbors points point epsilonSquared neighbors maxNeighbors
  = Some (neighbors', count) ->
  StronglySorted Z.lt (filled neighbors' count)
  /\ NoDup (filled neighbors' count).
Proof.
  intros Hm Hrun.
  destruct (findNeighbors_spec points point epsilonSquared neighbors
              maxNeighbors Hm)
    as (buf' & count' & Hrun' & _ & _ & Hfill & _).
  rewrite Hrun in Hrun'. injection Hrun' as <- <-.
  assert (StronglySorted Z.lt (filled neighbors' count)) as Hs.
  { rewrite Hfill. apply StronglySorted_take, within_from_sorted. }
  split; [exact Hs|].
  clear -Hs. induction Hs as [|a l _ IH Hall]; constructor; [|exact IH].
  intros Hin. eapply Forall_forall in Hall; [|exact Hin]. lia.
Qed.

Lemma findNeighbors_increasing_witness :
  exists neighbors',
    findNeighbors (load three_in_a_row).1 (newPoint 2 1) 6.25 fresh_buffer
                  MAX_NEIGHBORS = Some (neighbors', 3)
    /\ StronglySorted Z.lt (filled neighbors' 3)
    /\ NoDup (filled neighbors' 3).
Proof.
  destruct (findNeighbors (load three_in_a_row).1 (newPoint 2 1) 6.25
              fresh_buffer MAX_NEIGHBORS) as [[buf n]|] eqn:Hrun.
  - assert (n = 3) as ->.
    { assert (snd <$> findNeighbors (load three_in_a_row).1 (newPoint 2 1) 6.25
                fresh_buffer MAX_NEIGHBORS = Some 3) as H
        by (vm_compute; reflexivity).
      rewrite Hrun in H. by injection H. }
    exists buf. split; [reflexivity|].
    refine (findNeighbors_increasing _ _ _ _ _ _ _ _ Hrun).
    rewrite length_fresh_buffer. unfold MAX_NEIGHBORS. lia.
  - exfalso.
    assert (is_Some (findNeighbors (load three_in_a_row).1 (newPoint 2 1) 6.25
              fresh_buffer MAX_NEIGHBORS)) as [r Hr]
      by (vm_compute; eauto).
    congruence.
Defined.

Lemma findNeighbors_from_same_xy cells cells' :
  Forall2 same_xy cells cells' ->
  forall i point point' eps2 buf maxN count,
    same_xy point point' ->
    findNeighbors_from cells i point eps2 buf maxN count
    = findNeighbors_from cells' i point' eps2 buf maxN count.
Proof.
  induction 1 as [|c c' cells cells' [Hx Hy] _ IH];
    intros i point point' eps2 buf maxN count [Hpx Hpy]; [reflexivity|].
  cbn [findNeighbors_from].
  unfold unset, squaredDistance. rewrite Hx, Hy, Hpx, Hpy.
  destruct (count <? maxN); [|reflexivity].
  destruct (_ && _).
  { by apply IH. }
  destruct (PrimFloat.leb _ _).
  - destruct (store_at buf count i); [|reflexivity]. by apply IH.
  - by apply IH.
Qed.

Lemma evolves_same_xy pts0 pts :
  Forall2 evolves pts0 pts -> Forall2 same_xy pts pts0.
Proof.
  intros H. apply Forall2_flip. eapply Forall2_impl; [exact H|].
  intros p0 p (Hx & Hy & _). by split.
Qed.

(** X4. A scan reads nothing but coordinates, and a run never changes
    them: at any time of any run a call of [findNeighbors] for a point
    returns what it returns on the array as it was loaded. *)
Theorem findNeighbors_stable
    (epsilon : float) (minPts : Z) (pts : list Point) (c : Config)
    (q : Z) (p0 : Point) (epsilonSquared : float)
    (neighbors : list Z) (maxNeighbors : Z) :
  dbscan_reaches epsilon minPts pts c ->
  point_at pts q = Some p0 ->
  exists p,
    point_at (points (store c)) q = Some p
    /\ same_xy p p0
    /\ findNeighbors (points (store c)) p epsilonSquared neighbors maxNeighbors
       = findNeighbors pts p0 epsilonSquared neighbors maxNeighbors.
Proof.
  intros Hrun Hp0.
  pose proof (inv_points _ _ (reaches_invariant _ _ _ _ Hrun)) as HF.
  destruct (evolves_point_at _ _ _ _ HF Hp0) as (p & Hp & Hx & Hy & _).
  exists p. split; [exact Hp|]. split; [by split|].
  apply findNeighbors_from_same_xy; [by apply evolves_same_xy | by split].
Qed.

Lemma findNeighbors_stable_witness :
  let pts := (load three_in_a_row).1 in
  let c := run_to (2.5 * 2.5) 2 (replicate 9 0%nat) (dbscan_start pts) in
  dbscan_reaches 2.5 2 pts c
  /\ point_at pts 1 = Some (newPoint 2 1)
  /\ exists p,
       point_at (points (store c)) 1 = Some p
       /\ same_xy p (newPoint 2 1)
       /\ findNeighbors (points (store c)) p 6.25 fresh_buffer MAX_NEIGHBORS
          = findNeighbors pts (newPoint 2 1) 6.25 fresh_buffer MAX_NEIGHBORS.
Proof.
  cbv zeta.
  assert (point_at (load three_in_a_row).1 1 = Some (newPoint 2 1)) as Hp
    by (vm_compute; reflexivity).
  split; [apply run_to_reaches|]. split; [exact Hp|].
  apply (findNeighbors_stable 2.5 2); [apply run_to_reaches | exact Hp].
Defined.

(** X5. When [maxNeighbors] is not below the number of slots, as in every
    call the program makes, a call of [findNeighbors] returns exactly the
    indices of the slots whose coordinates are not both zero and whose
    squared distance to [point] is at most [epsilonSquared]. *)
Theorem findNeighbors_exact
    (points : list Point) (point : Point) (epsilonSquared : float)
    (neighbors : list Z) (maxNeighbors : Z) :
  Z.of_nat (length points) <= maxNeighbors <= Z.of_nat (length neighbors) ->
  exists neighbors' count,
    findNeighbors points point epsilonSquared neighbors maxNeighbors
    = Some (neighbors', count)
    /\ forall v,
         v ∈ filled neighbors' count <->
         exists c, point_at points v = Some c
                   /\ unset c = false
                   /\ PrimFloat.leb (squaredDistance point c) epsilonSquared
                      = true.
Proof.
  intros [Hall Hm].
  destruct (findNeighbors_spec points point epsilonSquared neighbors
              maxNeighbors Hm)
    as (buf' & count & Hrun & _ & _ & Hfill & _).
  exists buf', count. split; [exact Hrun|].
  intros v. rewrite Hfill, take_ge.
  2:{ pose proof (within_from_length points 0 point epsilonSquared).
      unfold within. lia. }
  unfold within. rewrite within_from_spec, Z.sub_0_r.
  split; intros (c & H1 & H2).
  - exists c. split; [apply point_at_Some|]; tauto.
  - apply point_at_Some in H1. exists c. tauto.
Qed.

Lemma findNeighbors_exact_witness :
  exists neighbors' count,
    findNeighbors (load two_groups).1 (newPoint 10 0) 6.25 fresh_buffer
                  MAX_NEIGHBORS
    = Some (neighbors', count)
    /\ forall v,
         v ∈ filled neighbors' count <->
         exists c, point_at (load two_groups).1 v = Some c
                   /\ unset c = false
                   /\ PrimFloat.leb (squaredDistance (newPoint 10 0) c) 6.25
                      = true.
Proof.
  apply findNeighbors_exact.
  rewrite length_fresh_buffer.
  destruct (load_array two_groups) as (_ & _ & ->).
  unfold MAX_NEIGHBORS, MAX_POINTS. lia.
Defined.

(** ** What a run does to the labels *)

Lemma grows_refl p : grows p p.
Proof. by split; [split|]. Qed.

Lemma Forall2_grows_refl pts : Forall2 grows pts pts.
Proof. induction pts; constructor; [apply grows_refl | done]. Qed.

Lemma grows_point_at pts pts' q p :
  Forall2 grows pts pts' -> point_at pts q = Some p ->
  exists p', point_at pts' q = Some p' /\ grows p p'.
Proof.
  intros HF [Hq Hp]%point_at_Some.
  destruct (Forall2_lookup_l _ _ _ _ _ HF Hp) as (p' & Hp' & Hg).
  exists p'. split; [by apply point_at_Some | exact Hg].
Qed.

Lemma labelled_grows pts pts' q :
  Forall2 grows pts pts' -> labelled pts q -> labelled pts' q.
Proof.
  intros HF (p & Hp & Hl).
  destruct (grows_point_at _ _ _ _ HF Hp) as (p' & Hp' & _ & _ & Hg).
  exists p'. split; [exact Hp' | by apply Hg].
Qed.

Lemma seen_grows pts pts' q :
  Forall2 grows pts pts' -> seen pts q = 1%nat -> seen pts' q = 1%nat.
Proof.
  intros HF Hs.
  destruct (seen_visited pts q) as (p & Hp & Hv); [lia|].
  destruct (grows_point_at _ _ _ _ HF Hp) as (p' & Hp' & _ & Hg & _).
  unfold seen. by rewrite Hp', (Hg Hv).
Qed.

Lemma grows_alter pts q p (f : Point -> Point) :
  point_at pts q = Some p -> grows p (f p) ->
  Forall2 grows pts (alter f (Z.to_nat q) pts).
Proof.
  intros [Hq Hp]%point_at_Some Hg.
  apply Forall2_same_length_lookup. split; [by rewrite length_alter|].
  intros k a b Ha Hb. destruct (decide (Z.to_nat q = k)) as [<-|Hne].
  - rewrite list_lookup_alter_eq, Hp in Hb. cbn in Hb.
    injection Hb as <-. by assert (a = p) as -> by congruence.
  - rewrite list_lookup_alter_ne in Hb by exact Hne.
    assert (a = b) as -> by congruence. apply grows_refl.
Qed.

Lemma grows_mark p : grows p (mark_visited p).
Proof. by split; [split|]. Qed.

Lemma grows_assign c p : c <> 0 -> grows p (assign c p).
Proof. intros Hc. by split; [split|]. Qed.

Lemma labelled_assigned pts q p c :
  point_at pts q = Some p -> c <> 0 ->
  labelled (alter (assign c) (Z.to_nat q) pts) q.
Proof.
  intros Hp Hc. exists (assign c p).
  split; [by apply point_at_alter_eq | exact Hc].
Qed.

Lemma labelled_tested pts q p :
  point_at pts q = Some p -> (clusterId p =? 0) = false -> labelled pts q.
Proof. intros Hp Hc%Z.eqb_neq. by exists p. Qed.

Section Labels.

Variable eps2 : float.
Variable minPts : Z.
Variable pts0 : list Point.

Lemma expanded_grows pts pts' r :
  Forall2 grows pts pts' ->
  expanded eps2 pts0 pts r -> expanded eps2 pts0 pts' r.
Proof.
  intros HF [Hr Hall]. split; [by eapply labelled_grows|].
  eapply Forall_impl; [exact Hall|]. intros q. by apply labelled_grows.
Qed.

Lemma good_frame_grows st st' invoked invoked' f :
  store_grows st st' -> invoked ⊆ invoked' ->
  good_frame eps2 pts0 st invoked f -> good_frame eps2 pts0 st' invoked' f.
Proof.
  intros [HF Hnext] Hsub (H1 & H2 & H3 & H4 & H5 & H6 & H7).
  split; [by apply Hsub|]. split; [exact H2|]. split; [exact H3|].
  split; [lia|]. split.
  { intros Hat. eapply labelled_grows; [exact HF | by apply H5]. }
  split.
  { eapply Forall_impl; [exact H6|]. intros q. by apply labelled_grows. }
  intros Hat. destruct (H7 Hat) as (q & Hq & Hs).
  exists q. split; [exact Hq | by eapply seen_grows].
Qed.

Lemma good_thread_grows st st' invoked invoked' th :
  store_grows st st' -> invoked ⊆ invoked' ->
  good_thread eps2 minPts pts0 st invoked th ->
  good_thread eps2 minPts pts0 st' invoked' th.
Proof.
  intros Hg Hsub. destruct th; cbn [good_thread]; try done.
  intros Hall. eapply Forall_impl; [exact Hall|].
  intros f. by apply good_frame_grows.
Qed.

(** A step lets the store grow. *)
Lemma thread_step_grows st th st' th' ev invoked :
  good_thread eps2 minPts pts0 st invoked th ->
  thread_step eps2 minPts st th = Some (st', th', ev) ->
  store_grows st st'.
Proof.
  intros Hgood H. step_cases H.
  all: cbn [good_thread] in Hgood.
  all: try match type of Hgood with
       | Forall _ (_ :: _) =>
           apply Forall_cons in Hgood as [(_ & _ & _ & Hcid & _) _]
       end.
  all: unfold store_grows, set_visited, set_clusterId;
       cbn [points nextClusterId with_points].
  all: split; try lia; try apply Forall2_grows_refl.
  all: eapply grows_alter; [eassumption|].
  all: first [ apply grows_mark | apply grows_assign; lia ].
Qed.

End Labels.

(** Names for the facts a case of [step_cases] leaves in the context. *)
Ltac name_step :=
  try match goal with H : ec_at _ = _ |- _ => rename H into Hat end;
  try match goal with H : entry_at _ _ = Some _ |- _ => rename H into Hentry end;
  try match goal with H : point_at _ _ = Some _ |- _ => rename H into Hpoint end;
  try match goal with
      | H : findNeighbors _ _ _ _ _ = Some _ |- _ => rename H into Hscan
      end;
  try match goal with H : visited _ = _ |- _ => rename H into Hvis end;
  try match goal with H : (clusterId _ =? 0) = _ |- _ => rename H into Hlab end;
  try match goal with H : (ec_i _ <? _) = _ |- _ => rename H into Hloop end;
  try match goal with H : (_ <=? _) = _ |- _ => rename H into Hcore end.

Lemma within_from_same_xy cells cells' :
  Forall2 same_xy cells cells' ->
  forall i point point' eps2,
    same_xy point point' ->
    within_from cells i point eps2 = within_from cells' i point' eps2.
Proof.
  induction 1 as [|c c' cells cells' [Hx Hy] _ IH];
    intros i point point' eps2 [Hpx Hpy]; [reflexivity|].
  cbn [within_from]. unfold unset, squaredDistance.
  rewrite Hx, Hy, Hpx, Hpy. rewrite (IH (i + 1) point point' eps2) by done.
  reflexivity.
Qed.

Lemma seen_of_visited pts q p :
  point_at pts q = Some p -> visited p = true -> seen pts q = 1%nat.
Proof. intros Hp Hv. unfold seen. by rewrite Hp, Hv. Qed.

Section Labels.

Variable eps2 : float.
Variable minPts : Z.
Variable pts0 : list Point.

(** A scan made during the run returns the neighbourhood. *)
Lemma scan_neighborhood pts q p buf buf' count :
  Forall2 evolves pts0 pts ->
  point_at pts q = Some p ->
  length buf = Z.to_nat MAX_NEIGHBORS ->
  findNeighbors pts p eps2 buf MAX_NEIGHBORS = Some (buf', count) ->
  filled buf' count = neighborhood eps2 pts0 q
  /\ count = Z.of_nat (length (neighborhood eps2 pts0 q)).
Proof.
  intros HF Hp Hlen Hrun.
  destruct (findNeighbors_spec pts p eps2 buf MAX_NEIGHBORS)
    as (buf'' & count'' & Hrun' & Hcount & _ & Hfill & _).
  { rewrite Hlen. unfold MAX_NEIGHBORS. lia. }
  rewrite Hrun in Hrun'. injection Hrun' as <- <-.
  destruct (evolves_point_at_r _ _ _ _ HF Hp) as (p0 & Hp0 & Hx & Hy & _).
  assert (within pts p eps2 = within pts0 p0 eps2) as Hw.
  { apply within_from_same_xy; [by apply evolves_same_xy | by split]. }
  unfold neighborhood. rewrite Hp0, <- Hw. by split.
Qed.

Lemma good_goto st invoked f l :
  good_frame eps2 pts0 st invoked f ->
  (l <> AtAssign -> labelled (points st) (ec_pointIndex f)) ->
  (l = AtFind \/ l = AtLoad \/ l = AtStore ->
   exists q, entry_at (ec_neighbors f) (ec_i f) = Some q
             /\ seen (points st) q = 1%nat) ->
  good_frame eps2 pts0 st invoked (goto f l).
Proof.
  intros (H1 & H2 & H3 & H4 & H5 & H6 & H7) Hl Hhand.
  split; [exact H1|]. split; [exact H2|]. split; [exact H3|].
  split; [exact H4|]. split; [exact Hl|]. split; [exact H6 | exact Hhand].
Qed.

Lemma good_next_neighbor st invoked f q :
  good_frame eps2 pts0 st invoked f ->
  ec_at f <> AtAssign ->
  0 <= ec_i f < ec_neighborCount f ->
  ec_neighborCount f <= Z.of_nat (length (ec_neighbors f)) ->
  entry_at (ec_neighbors f) (ec_i f) = Some q ->
  labelled (points st) q ->
  good_frame eps2 pts0 st invoked (next_neighbor f).
Proof.
  intros (H1 & H2 & H3 & H4 & H5 & H6 & H7) Hat Hi Hlen Hq Hlab.
  split; [exact H1|]. split; [exact H2|]. split; [exact H3|].
  split; [exact H4|]. split; [intros _; by apply H5|]. split.
  - cbn [ec_i ec_neighbors ec_neighborCount next_neighbor].
    unfold filled in *.
    replace (Z.to_nat (Z.min (ec_i f + 1) (ec_neighborCount f)))
      with (S (Z.to_nat (ec_i f))) by lia.
    replace (Z.to_nat (Z.min (ec_i f) (ec_neighborCount f)))
      with (Z.to_nat (ec_i f)) in H6 by lia.
    apply entry_at_Some in Hq as [_ Hq].
    rewrite (take_S_r _ _ _ Hq). apply Forall_app. split; [exact H6|].
    by apply Forall_singleton.
  - cbn. intros [? | [? | ?]]; discriminate.
Qed.

Lemma good_scanned st invoked f buf :
  good_frame eps2 pts0 st invoked f -> ec_at f = AtFind ->
  good_frame eps2 pts0 st invoked (scanned f buf).
Proof.
  intros (H1 & H2 & H3 & H4 & H5 & H6 & H7) Hat.
  split; [exact H1|]. split; [exact H2|]. split; [exact H3|].
  split; [exact H4|]. split.
  { intros _. apply H5. congruence. }
  split; [exact H6|]. intros _. apply H7. by left.
Qed.

Lemma good_enter st invoked q buf count cid :
  q ∈ invoked ->
  filled buf count = neighborhood eps2 pts0 q ->
  count = Z.of_nat (length (neighborhood eps2 pts0 q)) ->
  1 <= cid <= nextClusterId st ->
  good_frame eps2 pts0 st invoked (enter q buf count cid).
Proof.
  intros H1 H2 H3 H4.
  split; [exact H1|]. split; [exact H2|]. split; [exact H3|].
  split; [exact H4|]. split; [done|]. split.
  - cbn [ec_i ec_neighbors ec_neighborCount enter]. unfold filled.
    replace (Z.to_nat (Z.min 0 count)) with 0%nat by lia. constructor.
  - cbn. intros [? | [? | ?]]; discriminate.
Qed.

End Labels.

Section Labels.

Variable eps2 : float.
Variable minPts : Z.
Variable pts0 : list Point.

(** The worker that takes a step stays good. *)
Lemma thread_step_good st th st' th' ev invoked :
  Forall2 evolves pts0 (points st) ->
  wf_thread pts0 th ->
  0 <= nextClusterId st ->
  good_thread eps2 minPts pts0 st invoked th ->
  thread_step eps2 minPts st th = Some (st', th', ev) ->
  good_thread eps2 minPts pts0 st' (invoked ++ ev) th'.
Proof.
  intros HF Hwf Hnn Hgood H.
  pose proof (thread_step_grows _ _ _ _ _ _ _ _ _ Hgood H) as Hgrow.
  assert (invoked ⊆ invoked ++ ev) as Hsub
    by (intros q Hq; apply elem_of_app; by left).
  step_cases H; name_step; cbn [good_thread wf_thread] in *.
  all: try match type of Hgood with
       | Forall _ (?f :: ?l) =>
           apply Forall_cons in Hgood as [Hf Hrest];
           destruct Hwf as [_ [Hwf _]%Forall_cons];
           pose proof (good_frame_grows _ _ _ _ _ _ _ Hgrow Hsub Hf) as Hf';
           assert (Forall (good_frame eps2 pts0 _ _) l) as Hrest'
             by (eapply Forall_impl; [exact Hrest|];
                 intros ?; by apply good_frame_grows)
       end.
  - done.
  - done.
  - done.
  - destruct (scan_neighborhood _ _ _ _ _ _ _ _ HF Hpoint
                length_fresh_buffer Hscan) as [H1 H2].
    split; [exact H1|]. split; [exact H2|]. by apply Z.leb_le.
  - done.
  - destruct Hgood as (H1 & H2 & H3).
    apply Forall_singleton, good_enter; try assumption.
    + apply elem_of_app. right. by apply list_elem_of_singleton.
    + cbn. lia.
  - apply Forall_cons. split; [|exact Hrest'].
    apply good_goto; [exact Hf' | | intros [? | [? | ?]]; discriminate].
    intros _. eapply labelled_assigned; [exact Hpoint|].
    destruct Hf as (_ & _ & _ & Hcid & _). lia.
  - apply Forall_cons. split; [|exact Hrest'].
    apply good_goto; [exact Hf' | | ].
    + intros _. apply Hf'. congruence.
    + intros _. exists z. split; [exact Hentry|].
      by eapply seen_of_visited.
  - apply Forall_cons. split; [|exact Hrest'].
    apply good_goto; [exact Hf' | | ].
    + intros _. apply Hf'. congruence.
    + intros _. exists z. split; [exact Hentry|].
      unfold set_visited; cbn [points with_points].
      rewrite (seen_mark _ _ _ _ Hpoint). by rewrite decide_True.
  - destruct l; [done | exact Hrest'].
  - destruct (scan_neighborhood _ _ _ _ _ _ _ _ HF Hpoint
                (proj1 (proj2 (proj2 (proj2 Hwf)))) Hscan) as [H1 H2].
    apply Forall_cons. split.
    { apply good_enter; try assumption.
      - apply elem_of_app. right. by apply list_elem_of_singleton.
      - apply Hf. }
    apply Forall_cons. split; [|exact Hrest'].
    by apply good_scanned.
  - apply Forall_cons. split; [|exact Hrest'].
    by apply good_scanned.
  - apply Forall_cons. split; [|exact Hrest'].
    apply good_goto; [exact Hf' | | ].
    + intros _. apply Hf'. congruence.
    + intros _. apply Hf'. right; left. exact Hat.
  - apply Forall_cons. split; [|exact Hrest'].
    pose proof (wf_frame_inside _ _ Hwf) as Hin.
    destruct Hwf as (_ & Hi & [Hlen _] & _).
    apply (good_next_neighbor _ _ _ _ _ z); try assumption.
    + congruence.
    + split; [exact Hi|]. apply Hin; congruence.
    + by eapply labelled_tested.
  - apply Forall_cons. split; [|exact Hrest'].
    pose proof (wf_frame_inside _ _ Hwf) as Hin.
    destruct Hwf as (_ & Hi & [Hlen _] & _).
    apply (good_next_neighbor _ _ _ _ _ z); try assumption.
    + congruence.
    + split; [exact Hi|]. apply Hin; congruence.
    + eapply labelled_assigned; [exact Hpoint|].
      destruct Hf as (_ & _ & _ & Hcid & _). lia.
  - done.
Qed.

End Labels.

Lemma awaits_nothing q f :
  ec_at f <> AtFind -> called q (frame_pending f) = 0%nat.
Proof. intros H. unfold frame_pending. by destruct (ec_at f). Qed.

Lemma active_push r f rest :
  active r (InExpand (f :: rest))
  = ((if decide (ec_pointIndex f = r) then 1 else 0)
     + active r (InExpand rest))%nat.
Proof. reflexivity. Qed.

Lemma active_leave r rest : active r (leave rest) = active r (InExpand rest).
Proof. by destruct rest. Qed.

Lemma point_at_nonneg pts k p : point_at pts k = Some p -> 0 <= k.
Proof. by intros [H _]%point_at_Some. Qed.

Lemma labelled_marked pts x q :
  labelled (alter mark_visited (Z.to_nat x) pts) q -> 0 <= x -> labelled pts q.
Proof.
  intros (p & Hp & Hl) Hx. destruct (decide (x = q)) as [->|Hne].
  - apply point_at_Some in Hp as [Hq Hp].
    rewrite list_lookup_alter_eq in Hp.
    destruct (pts !! Z.to_nat q) as [p1|] eqn:Hp1; [|discriminate].
    injection Hp as <-. exists p1. split; [by apply point_at_Some | exact Hl].
  - rewrite point_at_alter_ne in Hp by done. by exists p.
Qed.

Lemma labelled_assigned_inv pts x c q :
  labelled (alter (assign c) (Z.to_nat x) pts) q -> 0 <= x ->
  q = x \/ labelled pts q.
Proof.
  intros (p & Hp & Hl) Hx. destruct (decide (x = q)) as [->|Hne]; [by left|].
  right. rewrite point_at_alter_ne in Hp by done. by exists p.
Qed.

Lemma entry_filled buf count k q :
  entry_at buf k = Some q -> k < count -> q ∈ filled buf count.
Proof.
  intros [Hk Hq]%entry_at_Some Hlt.
  apply (list_elem_of_lookup_2 _ (Z.to_nat k)).
  unfold filled. rewrite lookup_take_lt by lia. exact Hq.
Qed.

Section Labels.

Variable eps2 : float.
Variable minPts : Z.
Variable pts0 : list Point.

(** The cluster ids stay between [0] and the counter, and only visited
    points are labelled. *)
Lemma thread_step_points st th st' th' ev invoked :
  0 <= nextClusterId st ->
  Forall (good_point (nextClusterId st)) (points st) ->
  good_thread eps2 minPts pts0 st invoked th ->
  (forall q, q ∈ invoked -> seen (points st) q = 1%nat) ->
  thread_step eps2 minPts st th = Some (st', th', ev) ->
  0 <= nextClusterId st'
  /\ Forall (good_point (nextClusterId st')) (points st')
  /\ nextClusterId st <= nextClusterId st'
  /\ nextClusterId st' <= nextClusterId st + Z.of_nat (length ev).
Proof.
  intros Hnn Hall Hgood Hinv H. step_cases H; name_step.
  all: cbn [good_thread] in Hgood.
  all: try match type of Hgood with
       | Forall _ (_ :: _) => apply Forall_cons in Hgood as [Hf _]
       end.
  all: unfold set_visited, set_clusterId;
       cbn [points nextClusterId with_points length].
  all: split; [lia|]. all: split; [|lia].
  all: try assumption.
  - apply Forall_alter; [exact Hall|].
    intros p' _ [Hb Hv]. by split.
  - eapply Forall_impl; [exact Hall|]. intros p' [Hb Hv]. split; [lia|done].
  - destruct Hf as (Hin & _ & _ & Hcid & _).
    apply Forall_alter; [exact Hall|].
    intros p' Hp' [Hb Hv]. split; [cbn; lia|]. intros _. cbn.
    destruct (seen_visited _ _ ltac:(rewrite (Hinv _ Hin); lia))
      as (p'' & [_ Hp'']%point_at_Some & Hv'').
    congruence.
  - apply Forall_alter; [exact Hall|].
    intros p' _ [Hb Hv]. by split.
  - destruct Hf as (_ & _ & _ & Hcid & _ & _ & Hhand).
    destruct Hhand as (q & Hq & Hs); [by right; right|].
    assert (q = z) as -> by congruence.
    apply Forall_alter; [exact Hall|].
    intros p' Hp' [Hb Hv]. split; [cbn; lia|]. intros _. cbn.
    destruct (seen_visited _ _ ltac:(rewrite Hs; lia))
      as (p'' & [_ Hp'']%point_at_Some & Hv'').
    congruence.
Qed.

(** [expandCluster] is invoked for core points only. *)
Lemma thread_step_core st th st' th' ev invoked :
  Forall2 evolves pts0 (points st) ->
  wf_thread pts0 th ->
  good_thread eps2 minPts pts0 st invoked th ->
  thread_step eps2 minPts st th = Some (st', th', ev) ->
  forall q, q ∈ ev -> core eps2 minPts pts0 q.
Proof.
  intros HF Hwf Hgood H q Hq. step_cases H; name_step.
  all: try (by apply elem_of_nil in Hq).
  all: apply list_elem_of_singleton in Hq as ->.
  all: cbn [good_thread wf_thread] in *.
  - destruct Hgood as (_ & H2 & H3). unfold core. lia.
  - destruct Hwf as [_ [Hwf _]%Forall_cons].
    destruct (scan_neighborhood _ _ _ _ _ _ _ _ HF Hpoint
                (proj1 (proj2 (proj2 (proj2 Hwf)))) Hscan) as [_ H2].
    apply Z.leb_le in Hcore. unfold core. lia.
Qed.

(** A point gets a label only as a point [expandCluster] was invoked for,
    or as a neighbour of such a point. *)
Lemma thread_step_reason st th st' th' ev invoked :
  wf_thread pts0 th ->
  good_thread eps2 minPts pts0 st invoked th ->
  thread_step eps2 minPts st th = Some (st', th', ev) ->
  forall q, labelled (points st') q ->
    labelled (points st) q
    \/ exists r, r ∈ invoked /\ (q = r \/ q ∈ neighborhood eps2 pts0 r).
Proof.
  intros Hwf Hgood H q Hq. step_cases H; name_step.
  all: cbn [good_thread wf_thread] in *.
  all: try match type of Hgood with
       | Forall _ (_ :: _) =>
           apply Forall_cons in Hgood as [Hf _];
           destruct Hwf as [_ [Hwf _]%Forall_cons]
       end.
  all: unfold set_visited, set_clusterId in Hq; cbn [points with_points] in Hq.
  all: try (by left).
  - left. eapply labelled_marked; [exact Hq|]. by eapply point_at_nonneg.
  - apply labelled_assigned_inv in Hq as [-> | Hq];
      [| by left | by eapply point_at_nonneg].
    right. exists (ec_pointIndex f). split; [apply Hf | by left].
  - left. eapply labelled_marked; [exact Hq|]. by eapply point_at_nonneg.
  - apply labelled_assigned_inv in Hq as [-> | Hq];
      [| by left | by eapply point_at_nonneg].
    right. exists (ec_pointIndex f). split; [apply Hf|]. right.
    destruct Hf as (_ & <- & _).
    eapply entry_filled; [exact Hentry|].
    apply (wf_frame_inside _ _ Hwf); congruence.
Qed.

(** A visited point is invoked, or pending, or not a core point. *)
Lemma thread_step_decided st th st' th' ev q :
  Forall2 evolves pts0 (points st) ->
  wf_thread pts0 th ->
  thread_step eps2 minPts st th = Some (st', th', ev) ->
  ((awaits q th <= called q ev + awaits q th')%nat
   \/ ~ core eps2 minPts pts0 q)
  /\ (seen (points st') q = 1%nat ->
      seen (points st) q = 1%nat \/ (0 < awaits q th')%nat).
Proof.
  intros HF Hwf H. step_cases H; name_step.
  all: cbn [wf_thread] in Hwf.
  all: try match type of Hwf with
       | _ /\ Forall _ (_ :: _) => destruct Hwf as [_ [Hwf _]%Forall_cons]
       end.
  all: unfold set_visited, set_clusterId; cbn [points with_points].
  all: rewrite ?awaits_leave, ?awaits_push.
  all: unfold frame_pending;
       cbn [ec_at ec_i ec_neighbors goto next_neighbor scanned enter].
  all: repeat match goal with
       | H : ec_at _ = _ |- _ => rewrite H
       | H : entry_at _ _ = Some _ |- _ => rewrite H
       end.
  all: unfold awaits; cbn [pending map concat].
  all: rewrite ?called_one.
  all: try match goal with
       | Hp : point_at ?pts ?x = Some ?p
         |- context [seen (alter mark_visited (Z.to_nat ?x) ?pts) _] =>
           rewrite (seen_mark pts x p _ Hp)
       end.
  all: try match goal with
       | Hp : point_at ?pts ?x = Some _
         |- context [seen (alter (assign _) (Z.to_nat ?x) ?pts) _] =>
           rewrite seen_assign by (by apply point_at_Some in Hp as [? _])
       end.
  all: repeat case_decide; subst; unfold called; cbn [count_occ].
  all: try (split; [left; lia | intros ?; first [by left | right; lia]]).
  - split; [right | by left].
    destruct (scan_neighborhood _ _ _ _ _ _ _ _ HF Hpoint
                length_fresh_buffer Hscan) as [_ H2].
    apply Z.leb_gt in Hcore. unfold core. lia.
  - split; [right | by left].
    destruct (scan_neighborhood _ _ _ _ _ _ _ _ HF Hpoint
                (proj1 (proj2 (proj2 (proj2 Hwf)))) Hscan) as [_ H2].
    apply Z.leb_gt in Hcore. unfold core. lia.
Qed.

(** An activation lasts until its point and all the neighbours of its
    point are labelled. *)
Lemma thread_step_done st th st' th' ev invoked r :
  good_thread eps2 minPts pts0 st invoked th ->
  thread_step eps2 minPts st th = Some (st', th', ev) ->
  ((active r th <= active r th')%nat \/ expanded eps2 pts0 (points st') r)
  /\ (r ∈ ev -> (0 < active r th')%nat).
Proof.
  intros Hgood H. step_cases H; name_step.
  all: cbn [good_thread] in Hgood.
  all: try match type of Hgood with
       | Forall _ (_ :: _) => apply Forall_cons in Hgood as [Hf _]
       end.
  all: rewrite ?active_leave, ?active_push.
  all: cbn [ec_pointIndex goto next_neighbor scanned enter].
  all: try (split; [left; cbn [active sum_list_with]; lia
                   | intros Hr; by apply elem_of_nil in Hr]).
  - split; [left; cbn; lia|].
    intros ->%list_elem_of_singleton. rewrite decide_True by done. lia.
  - split; [|intros Hr; by apply elem_of_nil in Hr].
    destruct (decide (ec_pointIndex f = r)) as [<-|Hne]; [right | left; lia].
    destruct Hf as (_ & Hfill & _ & _ & Hlab & Hall & _).
    split; [apply Hlab; congruence|].
    rewrite <- Hfill.
    apply Z.ltb_ge in Hloop.
    by replace (Z.min (ec_i f) (ec_neighborCount f))
      with (ec_neighborCount f) in Hall by lia.
  - split; [left; lia|].
    intros ->%list_elem_of_singleton. rewrite decide_True by done. lia.
Qed.

End Labels.

Lemma load_fresh input : fresh (load input).1.
Proof.
  destruct (load_array input) as (-> & _ & _).
  apply Forall_app. split.
  - apply Forall_fmap, Forall_forall. by intros [a b] _.
  - apply Forall_replicate. by split.
Qed.

Lemma fresh_point pts q p : fresh pts -> point_at pts q = Some p ->
  clusterId p = 0 /\ visited p = false.
Proof.
  intros Hf [_ Hp]%point_at_Some. by eapply Forall_lookup_1 in Hf.
Qed.

Section Labels.

Variable eps2 : float.
Variable minPts : Z.
Variable pts0 : list Point.

Lemma labelling_start :
  fresh pts0 -> labelling eps2 minPts pts0 (dbscan_start pts0).
Proof.
  intros Hfresh.
  pose proof (spawn_from_fresh pts0 0) as Hw.
  split; cbn [dbscan_start store workers calls points nextClusterId].
  - eapply Forall_impl; [exact Hw|]. by intros th [-> | [j ->]].
  - split; [lia|]. eapply Forall_impl; [exact Hfresh|].
    intros p [Hc Hv]. split; [lia | congruence].
  - cbn. lia.
  - intros q Hq. by apply elem_of_nil in Hq.
  - intros q (p & Hp & Hl). by destruct (fresh_point _ _ _ Hfresh Hp).
  - intros q Hs. destruct (seen_visited pts0 q) as (p & Hp & Hv); [lia|].
    destruct (fresh_point _ _ _ Hfresh Hp). congruence.
  - intros r Hr. by apply elem_of_nil in Hr.
Qed.

Lemma labelling_step c c' :
  invariant pts0 c -> labelling eps2 minPts pts0 c ->
  step eps2 minPts c c' ->
  labelling eps2 minPts pts0 c'.
Proof.
  intros [Hpts Hws _ Honce _ _] [Lw [Lnn Lp] Lid Lcore Lreason Ldec Ldone]
         (k & th & st' & th' & ev & Hk & Hs & ->)%step_inv.
  pose proof (Forall_lookup_1 _ _ _ _ Hws Hk) as Hwf.
  pose proof (Forall_lookup_1 _ _ _ _ Lw Hk) as Hgood.
  pose proof (thread_step_grows _ _ _ _ _ _ _ _ _ Hgood Hs) as Hgrow.
  assert (calls c ⊆ calls c ++ ev) as Hsub
    by (intros q Hq; apply elem_of_app; by left).
  assert (forall q, q ∈ calls c -> seen (points (store c)) q = 1%nat) as Hseen.
  { intros q Hq%called_pos. specialize (Honce q).
    pose proof (seen_le_1 (points (store c)) q). lia. }
  destruct (thread_step_points _ _ _ _ _ _ _ _ _ Lnn Lp Hgood Hseen Hs)
    as (Lnn' & Lp' & Hn1 & Hn2).
  assert (th ∈ workers c) as Hin by (by eapply list_elem_of_lookup_2).
  split; cbn [store workers calls].
  - apply Forall_insert.
    + eapply Forall_impl; [exact Lw|]. intros th0.
      by apply good_thread_grows.
    + by eapply thread_step_good.
  - by split.
  - rewrite length_app. lia.
  - intros q [Hq | Hq]%elem_of_app; [by apply Lcore|].
    by eapply (thread_step_core _ _ _ _ _ _ _ _ _ Hpts Hwf Hgood Hs).
  - intros q Hq.
    destruct (thread_step_reason _ _ _ _ _ _ _ _ _ Hwf Hgood Hs q Hq)
      as [Hold | (r & Hr & Hqr)].
    + destruct (Lreason q Hold) as (r & Hr & Hqr).
      exists r. split; [by apply Hsub | exact Hqr].
    + exists r. split; [by apply Hsub | exact Hqr].
  - intros q Hq.
    destruct (thread_step_decided _ _ _ _ _ _ _ _ q Hpts Hwf Hs)
      as [Hkeep Hnew].
    pose proof (sum_list_with_insert (awaits q) _ _ _ th' Hk) as Hsum.
    pose proof (sum_list_with_in th (awaits q) _ Hin) as Hle.
    rewrite called_app.
    destruct (Hnew Hq) as [Hold | Hpos]; [|left; lia].
    destruct (Ldec q Hold) as [Hpos | Hnc]; [|by right].
    destruct Hkeep as [Hkeep | Hnc]; [left; lia | by right].
  - intros r Hr.
    destruct (thread_step_done _ _ _ _ _ _ _ _ _ r Hgood Hs) as [Hkeep Hnew].
    pose proof (sum_list_with_insert (active r) _ _ _ th' Hk) as Hsum.
    pose proof (sum_list_with_in th (active r) _ Hin) as Hle.
    apply elem_of_app in Hr as [Hr | Hr].
    + destruct (Ldone r Hr) as [Hpos | Hexp].
      * destruct Hkeep as [Hkeep | Hexp]; [left; lia | by right].
      * right. eapply expanded_grows; [apply Hgrow | exact Hexp].
    + left. specialize (Hnew Hr). lia.
Qed.

End Labels.

Lemma reaches_labelling epsilon minPts pts c :
  fresh pts ->
  dbscan_reaches epsilon minPts pts c ->
  labelling (epsilon * epsilon) minPts pts c.
Proof.
  intros Hfresh Hrun. revert c Hrun. apply rtc_ind_r.
  - by apply labelling_start.
  - intros c1 c2 Hrun Hstep IH.
    eapply labelling_step; [|exact IH | exact Hstep].
    eapply reaches_invariant, Hrun.
Qed.

(** Workers that have returned hold nothing. *)
Lemma final_idle c q :
  final c ->
  sum_list_with (awaits q) (workers c) = 0%nat
  /\ sum_list_with (active q) (workers c) = 0%nat.
Proof.
  intros Hf. split; apply sum_list_with_zero.
  all: eapply Forall_impl; [exact Hf|].
  all: by intros [] Hi.
Qed.

(** ** The labels of a run *)

(** When all workers have returned every point that is not at the origin
    is visited. *)
Lemma final_visited epsilon minPts pts c r :
  dbscan_reaches epsilon minPts pts c -> final c ->
  loaded pts r -> seen (points (store c)) r = 1%nat.
Proof.
  intros Hrun Hfinal (p & [Hr Hp]%point_at_Some & Hu).
  destruct (reaches_workers _ _ _ _ Hrun) as [Hlen _].
  destruct (lookup_lt_is_Some_2 (workers c) (Z.to_nat r)) as [th Hth].
  { rewrite Hlen. by eapply lookup_lt_Some. }
  pose proof (inv_owns _ _ (reaches_invariant _ _ _ _ Hrun) _ th Hth) as Hown.
  pose proof (Forall_lookup_1 _ _ _ _ Hfinal Hth) as Hidle.
  destruct th; try discriminate; cbn [owns] in Hown.
  - destruct Hown as (p' & Hp' & Hu'). congruence.
  - by rewrite Z2Nat.id in Hown by exact Hr.
Qed.

(** The points [expandCluster] was invoked for are not at the origin. *)
Lemma invoked_loaded epsilon minPts pts c r :
  fresh pts -> dbscan_reaches epsilon minPts pts c ->
  r ∈ calls c -> loaded pts r.
Proof.
  intros Hfresh Hrun Hr%called_pos.
  destruct (reaches_invariant _ _ _ _ Hrun) as [Hpts _ _ Honce _ _].
  destruct (seen_visited (points (store c)) r) as (p & Hp & Hv).
  { specialize (Honce r). lia. }
  destruct (evolves_point_at_r _ _ _ _ Hpts Hp) as (p0 & Hp0 & _ & _ & Hsame).
  exists p0. split; [exact Hp0|].
  destruct (unset p0) eqn:Hu; [|reflexivity].
  rewrite (Hsame eq_refl) in Hv.
  destruct (fresh_point _ _ _ Hfresh Hp0). congruence.
Qed.

(** When all workers have returned, the expansion from every core point
    that is not at the origin is complete. *)
Lemma final_core_expanded epsilon minPts pts c r :
  fresh pts -> dbscan_reaches epsilon minPts pts c -> final c ->
  loaded pts r -> core (epsilon * epsilon) minPts pts r ->
  expanded (epsilon * epsilon) pts (points (store c)) r.
Proof.
  intros Hfresh Hrun Hfinal Hr Hcore.
  pose proof (reaches_labelling _ _ _ _ Hfresh Hrun) as Hlab.
  pose proof (final_visited _ _ _ _ _ Hrun Hfinal Hr) as Hseen.
  destruct (final_idle c r Hfinal) as [Hnone Hnoact].
  assert (r ∈ calls c) as Hin.
  { destruct (lab_decided _ _ _ _ Hlab r Hseen) as [Hpos | Hnc]; [|done].
    apply called_pos. lia. }
  destruct (lab_done _ _ _ _ Hlab r Hin) as [Hpos | Hexp]; [lia | exact Hexp].
Qed.

(** A labelled point is a core point that is not at the origin, or a
    neighbour of one. *)
Lemma labelled_has_core epsilon minPts pts c q :
  fresh pts -> dbscan_reaches epsilon minPts pts c ->
  labelled (points (store c)) q ->
  exists r, loaded pts r
            /\ core (epsilon * epsilon) minPts pts r
            /\ (q = r \/ q ∈ neighborhood (epsilon * epsilon) pts r).
Proof.
  intros Hfresh Hrun Hq.
  pose proof (reaches_labelling _ _ _ _ Hfresh Hrun) as Hlab.
  destruct (lab_reason _ _ _ _ Hlab q Hq) as (r & Hr & Hqr).
  exists r. split; [by eapply invoked_loaded|].
  split; [by eapply lab_core | exact Hqr].
Qed.

(** A point gets a cluster id only in a slot that is not at the origin. *)
Lemma labelled_loaded epsilon minPts pts c q :
  fresh pts -> dbscan_reaches epsilon minPts pts c ->
  labelled (points (store c)) q -> loaded pts q.
Proof.
  intros Hfresh Hrun (p & Hp & Hlab).
  pose proof (inv_points _ _ (reaches_invariant _ _ _ _ Hrun)) as Hpts.
  destruct (evolves_point_at_r _ _ _ _ Hpts Hp) as (p0 & Hp0 & _ & _ & Hsame).
  exists p0. split; [exact Hp0|].
  destruct (unset p0) eqn:Hu; [|reflexivity].
  rewrite (Hsame eq_refl) in Hlab.
  destruct (fresh_point _ _ _ Hfresh Hp0). congruence.
Qed.

(** X6. The outcome of every run, whatever the interleaving. When all
    workers have returned, the slots with a cluster id are exactly these:
    the slots [r] whose coordinates are not both zero and for which the
    scan of [findNeighbors] returns at least [minPts] indices, and the
    indices the scan returns for such an [r]. All other slots have the
    label [0]. A slot at [(0, 0)] is never among the labelled ones, also
    when the reading loop filled it and whatever lies around it: no worker
    is started for it and no scan returns it. *)
Theorem clustered_iff_core_or_neighbour
    (epsilon : float) (minPts : Z) (pts : list Point) (c : Config) (q : Z) :
  fresh pts ->
  dbscan_reaches epsilon minPts pts c ->
  final c ->
  (labelled (points (store c)) q
   <-> exists r p, point_at pts r = Some p /\ unset p = false
                   /\ core (epsilon * epsilon) minPts pts r
                   /\ (q = r \/ q ∈ neighborhood (epsilon * epsilon) pts r))
  /\ (forall p, point_at pts q = Some p -> unset p = true ->
      ~ labelled (points (store c)) q).
Proof.
  intros Hfresh Hrun Hfinal. split; [split|].
  - intros Hq.
    destruct (labelled_has_core _ _ _ _ _ Hfresh Hrun Hq)
      as (r & (p & Hp & Hu) & Hcore & Hqr).
    by exists r, p.
  - intros (r & p & Hp & Hu & Hcore & Hqr).
    assert (loaded pts r) as Hr by (by exists p).
    destruct (final_core_expanded _ _ _ _ _ Hfresh Hrun Hfinal Hr Hcore)
      as [Hr1 Hall].
    destruct Hqr as [-> | Hqr]; [exact Hr1|].
    by eapply Forall_forall in Hall.
  - intros p Hp Hu Hq.
    destruct (labelled_loaded _ _ _ _ _ Hfresh Hrun Hq) as (p' & Hp' & Hu').
    congruence.
Qed.

(** The input [0 0], [1 1], [1.5 1] with [dbscan(2.5, 2)], after the run in
    which worker 1 absorbs point 2. The scan for each of the three points
    returns the indices 1 and 2, so each of them has [minPts] neighbours.
    The points 1 and 2 are labelled; the point at the origin is not. *)
Lemma clustered_iff_core_or_neighbour_witness :
  let pts := (load origin_and_two).1 in
  let sched := (replicate 18 1 ++ replicate 3 2)%nat in
  let c := run_to (2.5 * 2.5) 2 sched (dbscan_start pts) in
  (load origin_and_two).2 = 3
  /\ run_schedule (2.5 * 2.5) 2 sched (dbscan_start pts) = Some c
  /\ final c
  /\ neighborhood (2.5 * 2.5) pts 0 = [1; 2]
  /\ neighborhood (2.5 * 2.5) pts 1 = [1; 2]
  /\ core (2.5 * 2.5) 2 pts 0
  /\ labelled (points (store c)) 1
  /\ labelled (points (store c)) 2
  /\ ~ labelled (points (store c)) 0
  /\ (label c 0, label c 1, label c 2) = (Some 0, Some 1, Some 1).
Proof.
  cbv zeta.
  assert (final (run_to (2.5 * 2.5) 2 (replicate 18 1 ++ replicate 3 2)%nat
                        (dbscan_start (load origin_and_two).1))) as Hfinal
    by (apply final_by_test; vm_compute; reflexivity).
  assert (neighborhood (2.5 * 2.5) (load origin_and_two).1 0 = [1; 2]) as Hn0
    by (vm_compute; reflexivity).
  assert (neighborhood (2.5 * 2.5) (load origin_and_two).1 1 = [1; 2]) as Hn1
    by (vm_compute; reflexivity).
  assert (point_at (load origin_and_two).1 0 = Some (newPoint 0 0)) as Hp0
    by (vm_compute; reflexivity).
  assert (point_at (load origin_and_two).1 1 = Some (newPoint 1 1)) as Hp1
    by (vm_compute; reflexivity).
  assert (unset (newPoint 0 0) = true) as Hu0 by (vm_compute; reflexivity).
  assert (unset (newPoint 1 1) = false) as Hu1 by (vm_compute; reflexivity).
  split; [vm_compute; reflexivity|].
  split; [vm_compute; reflexivity|].
  split; [exact Hfinal|].
  split; [exact Hn0|]. split; [exact Hn1|].
  split; [unfold core; rewrite Hn0; cbn [length]; lia|].
  assert (core (2.5 * 2.5) 2 (load origin_and_two).1 1) as Hcore
    by (unfold core; rewrite Hn1; cbn [length]; lia).
  pose proof (fun q =>
    clustered_iff_core_or_neighbour 2.5 2 (load origin_and_two).1 _ q
      (load_fresh origin_and_two)
      (run_to_reaches 2.5 2 (replicate 18 1 ++ replicate 3 2)%nat _) Hfinal)
    as Hall.
  split.
  { apply (proj1 (Hall 1)). exists 1, (newPoint 1 1).
    split; [exact Hp1|]. split; [exact Hu1|]. split; [exact Hcore|]. by left. }
  split.
  { apply (proj1 (Hall 2)). exists 1, (newPoint 1 1).
    split; [exact Hp1|]. split; [exact Hu1|]. split; [exact Hcore|].
    right. rewrite Hn1. apply elem_of_cons. right. apply elem_of_cons. by left. }
  split; [|vm_compute; reflexivity].
  exact (proj2 (Hall 0) _ Hp0 Hu0).
Defined.

(** Bounds on the cluster ids, the counter and the history. *)
Lemma reaches_cluster_ids
    (epsilon : float) (minPts : Z) (pts : list Point) (c : Config)
    (k : nat) (p : Point) :
  fresh pts ->
  dbscan_reaches epsilon minPts pts c ->
  points (store c) !! k = Some p ->
  0 <= clusterId p <= nextClusterId (store c)
  /\ nextClusterId (store c) <= Z.of_nat (length (calls c))
  /\ (length (calls c) <= length pts)%nat
  /\ (clusterId p <> 0 -> visited p = true).
Proof.
  intros Hfresh Hrun Hp.
  pose proof (reaches_labelling _ _ _ _ Hfresh Hrun) as Hlab.
  destruct (lab_points _ _ _ _ Hlab) as [_ Hall].
  destruct (Forall_lookup_1 _ _ _ _ Hall Hp) as [Hb Hv].
  split; [exact Hb|]. split; [by eapply lab_ids|]. split; [|exact Hv].
  destruct (reaches_invariant _ _ _ _ Hrun) as [Hpts _ _ Honce _ _].
  apply NoDup_indices_length.
  - apply called_NoDup. intros v. specialize (Honce v).
    pose proof (seen_le_1 (points (store c)) v). lia.
  - intros v Hv'%called_pos.
    destruct (seen_visited (points (store c)) v)
      as (p' & [H0 Hp']%point_at_Some & _).
    { specialize (Honce v). lia. }
    apply lookup_lt_Some in Hp'. rewrite (Forall2_length _ _ _ Hpts). lia.
Qed.

(** X7. In every state of every run the cluster id of every point is
    between [0] and the counter [nextClusterId], the counter is at most the
    number of invocations of [expandCluster], and these are at most the
    slots of the array: no label exceeds [MAX_POINTS] when the array has
    [MAX_POINTS] slots. A point with a cluster id has been visited. *)
Theorem cluster_ids_bounded
    (epsilon : float) (minPts : Z) (pts : list Point) (c : Config)
    (k : nat) (p : Point) :
  fresh pts ->
  dbscan_reaches epsilon minPts pts c ->
  points (store c) !! k = Some p ->
  0 <= clusterId p <= nextClusterId (store c)
  /\ nextClusterId (store c) <= Z.of_nat (length (calls c))
  /\ (length (calls c) <= length pts)%nat
  /\ (clusterId p <> 0 -> visited p = true).
Proof. apply reaches_cluster_ids. Qed.

Lemma cluster_ids_bounded_witness :
  let pts := (load three_in_a_row).1 in
  let c := run_to (2.5 * 2.5) 2 (replicate 9 0 ++ replicate 10 2)%nat
                  (dbscan_start pts) in
  fresh pts /\ dbscan_reaches 2.5 2 pts c
  /\ points (store c) !! 1%nat
     = Some {| x := 2; y := 1; clusterId := 2; visited := true |}
  /\ 0 <= 2 <= nextClusterId (store c)
  /\ nextClusterId (store c) <= Z.of_nat (length (calls c))
  /\ (length (calls c) <= length pts)%nat.
Proof.
  cbv zeta.
  assert (points (store (run_to (2.5 * 2.5) 2
                           (replicate 9 0 ++ replicate 10 2)%nat
                           (dbscan_start (load three_in_a_row).1))) !! 1%nat
          = Some {| x := 2; y := 1; clusterId := 2; visited := true |}) as Hp
    by (vm_compute; reflexivity).
  split; [apply load_fresh|]. split; [apply run_to_reaches|].
  split; [exact Hp|].
  destruct (cluster_ids_bounded 2.5 2 _ _ _ _ (load_fresh three_in_a_row)
              (run_to_reaches 2.5 2 _ _) Hp) as (H1 & H2 & H3 & _).
  split; [exact H1|]. split; [exact H2 | exact H3].
Defined.

(** X8. [expandCluster] is invoked, by [processPoint] or by itself, only
    for loaded points whose scan returns at least [minPts] neighbours: a
    point with fewer neighbours never seeds or extends a cluster. *)
Theorem expandCluster_only_for_core_points
    (epsilon : float) (minPts : Z) (pts : list Point) (c : Config) (q : Z) :
  fresh pts ->
  dbscan_reaches epsilon minPts pts c ->
  q ∈ calls c ->
  loaded pts q
  /\ minPts <= Z.of_nat (length (neighborhood (epsilon * epsilon) pts q)).
Proof.
  intros Hfresh Hrun Hq. split; [by eapply invoked_loaded|].
  by apply (lab_core _ _ _ _ (reaches_labelling _ _ _ _ Hfresh Hrun)).
Qed.

Lemma expandCluster_only_for_core_points_witness :
  let pts := (load two_groups).1 in
  let c := run_to (2.5 * 2.5) 4 (replicate 8 1 ++ replicate 7 4)%nat
                  (dbscan_start pts) in
  fresh pts /\ dbscan_reaches 2.5 4 pts c /\ 4 ∈ calls c
  /\ loaded pts 4
  /\ 4 <= Z.of_nat (length (neighborhood (2.5 * 2.5) pts 4)).
Proof.
  cbv zeta.
  assert (4 ∈ calls (run_to (2.5 * 2.5) 4 (replicate 8 1 ++ replicate 7 4)%nat
                            (dbscan_start (load two_groups).1))) as Hin.
  { replace (calls _) with [1; 4] by (vm_compute; reflexivity).
    apply elem_of_cons. right. by apply list_elem_of_singleton. }
  split; [apply load_fresh|]. split; [apply run_to_reaches|].
  split; [exact Hin|].
  exact (expandCluster_only_for_core_points 2.5 4 _ _ _
           (load_fresh two_groups) (run_to_reaches 2.5 4 _ _) Hin).
Defined.

(** X9. No step of a run takes anything back: the coordinates of every
    point stay, a visited point stays visited, a point with a cluster id
    keeps a cluster id (not necessarily the same), the counter of cluster
    ids does not decrease, and the history of invocations is only
    extended. *)
Theorem steps_only_add
    (epsilon : float) (minPts : Z) (pts : list Point) (c c' : Config) :
  fresh pts ->
  dbscan_reaches epsilon minPts pts c ->
  dbscan_step epsilon minPts c c' ->
  Forall2 grows (points (store c)) (points (store c'))
  /\ nextClusterId (store c) <= nextClusterId (store c')
  /\ exists ev, calls c' = calls c ++ ev.
Proof.
  intros Hfresh Hrun (k & th & st' & th' & ev & Hk & Hs & ->)%step_inv.
  pose proof (reaches_labelling _ _ _ _ Hfresh Hrun) as Hlab.
  pose proof (Forall_lookup_1 _ _ _ _ (lab_workers _ _ _ _ Hlab) Hk) as Hgood.
  destruct (thread_step_grows _ _ _ _ _ _ _ _ _ Hgood Hs) as [H1 H2].
  split; [exact H1|]. split; [exact H2|]. by exists ev.
Qed.

Lemma steps_only_add_witness :
  let pts := (load three_in_a_row).1 in
  let c := run_to (2.5 * 2.5) 2 (replicate 9 0 ++ replicate 10 2)%nat
                  (dbscan_start pts) in
  let c' := run_to (2.5 * 2.5) 2 (replicate 9 0 ++ replicate 10 2 ++ [0])%nat
                   (dbscan_start pts) in
  fresh pts /\ dbscan_reaches 2.5 2 pts c /\ dbscan_step 2.5 2 c c'
  /\ Forall2 grows (points (store c)) (points (store c'))
  /\ nextClusterId (store c) <= nextClusterId (store c').
Proof.
  cbv zeta.
  assert (dbscan_step 2.5 2
            (run_to (2.5 * 2.5) 2 (replicate 9 0 ++ replicate 10 2)%nat
                    (dbscan_start (load three_in_a_row).1))
            (run_to (2.5 * 2.5) 2 (replicate 9 0 ++ replicate 10 2 ++ [0])%nat
                    (dbscan_start (load three_in_a_row).1))) as Hstep.
  { apply (step_thread _ _ 0%nat). vm_compute. reflexivity. }
  split; [apply load_fresh|]. split; [apply run_to_reaches|].
  split; [exact Hstep|].
  destruct (steps_only_add 2.5 2 _ _ _ (load_fresh three_in_a_row)
              (run_to_reaches 2.5 2 _ _) Hstep) as (H1 & H2 & _).
  split; [exact H1 | exact H2].
Defined.

(** X10. The semaphore never blocks a run for good: in every state of
    every run in which some worker has not returned, some worker can take
    a step. *)
Theorem no_deadlock
    (epsilon : float) (minPts : Z) (pts : list Point) (c : Config) :
  dbscan_reaches epsilon minPts pts c ->
  ~ final c ->
  exists c', dbscan_step epsilon minPts c c'.
Proof.
  intros Hrun Hnf.
  exact (progress _ _ _ _ (reaches_invariant _ _ _ _ Hrun) Hnf).
Qed.

Lemma no_deadlock_witness :
  let pts := (load seventeen).1 in
  let c := run_to (2.5 * 2.5) 2 (seq 0 16) (dbscan_start pts) in
  dbscan_reaches 2.5 2 pts c
  /\ thread_limiter (store c) = 0
  /\ ~ final c
  /\ exists c', dbscan_step 2.5 2 c c'.
Proof.
  cbv zeta.
  assert (~ final (run_to (2.5 * 2.5) 2 (seq 0 16)
                          (dbscan_start (load seventeen).1))) as Hnf.
  { intros Hf.
    apply (Forall_lookup_1 _ _ 0%nat (AtVisit 0)) in Hf; [discriminate|].
    vm_compute. reflexivity. }
  split; [apply run_to_reaches|].
  split; [vm_compute; reflexivity|].
  split; [exact Hnf|].
  apply (no_deadlock 2.5 2 (load seventeen).1); [apply run_to_reaches | exact Hnf].
Defined.

(** ** The lines of the output file *)

Lemma output_labels pts (n : Z) :
  Forall (fun p => 0 <= clusterId p <= n) pts ->
  Forall (fun t => 0 <= t.2 <= n) (output pts).
Proof.
  induction 1 as [|p pts Hp _ IH]; cbn [output]; [constructor|].
  destruct (unset p); cbn; [exact IH|]. by constructor.
Qed.

(** The writing loop writes the text of the operands, one line each, and
    counts them. *)
Lemma write_loop_output show_double show_int cells n :
  write_loop show_double show_int cells n
  = (line show_double show_int <$> output cells,
     n + Z.of_nat (length (output cells))).
Proof.
  revert n. induction cells as [|c rest IH]; intros n; cbn [write_loop output].
  - cbn. by rewrite Z.add_0_r.
  - destruct (unset c); cbn [negb]; rewrite IH; [reflexivity|].
    cbn [fmap list_fmap length]. f_equal. lia.
Qed.

Lemma lines_of_operands show_double show_int n (out : list (float * float * Z)) :
  Forall (fun t => 0 <= t.2 <= n) out ->
  Forall2 (line_for show_double show_int n) out.*1
          (line show_double show_int <$> out).
Proof.
  induction 1 as [|[ab l] out Hl _ IH]; cbn [fmap list_fmap]; constructor;
    [|exact IH].
  exists l. by split.
Qed.

(** The operands of the writing loop in a state of a run: the pairs read,
    without those at the origin, each with a label between [0] and
    [MAX_POINTS]. *)
Lemma operands_of_run epsilon minPts input c :
  dbscan_reaches epsilon minPts (load input).1 c ->
  (output (points (store c))).*1
  = List.filter (fun ab => negb (at_origin ab)) (take (Z.to_nat MAX_POINTS) input)
  /\ Forall (fun t => 0 <= t.2 <= MAX_POINTS) (output (points (store c))).
Proof.
  intros Hrun. destruct (load_array input) as (Harr & _ & Hlen). split.
  - rewrite (output_coords _ _ (inv_points _ _ (reaches_invariant _ _ _ _ Hrun))).
    rewrite Harr, output_app, output_no_points, app_nil_r.
    apply output_loaded.
  - apply output_labels, Forall_forall. intros p Hp.
    apply list_elem_of_lookup_1 in Hp as [k Hk].
    destruct (reaches_cluster_ids epsilon minPts _ _ _ _
                (load_fresh input) Hrun Hk) as (H1 & H2 & H3 & _).
    rewrite Hlen in H3. unfold MAX_POINTS in *. lia.
Qed.

Lemma written_of_run show_double show_int epsilon minPts input c :
  dbscan_reaches epsilon minPts (load input).1 c ->
  let kept := List.filter (fun ab => negb (at_origin ab))
                          (take (Z.to_nat MAX_POINTS) input) in
  let file := write_loop show_double show_int (points (store c)) 0 in
  Forall2 (line_for show_double show_int MAX_POINTS) kept file.1
  /\ file.2 = Z.of_nat (length kept).
Proof.
  intros Hrun kept file. unfold file. rewrite write_loop_output. cbn [fst snd].
  destruct (operands_of_run _ _ _ _ Hrun) as [Hout Hlab]. fold kept in Hout.
  split.
  - rewrite <- Hout. by apply lines_of_operands.
  - by rewrite <- Hout, length_fmap.
Qed.

(** X2. Whatever the run of [dbscan] did, the writing loop of [main]
    hands to [operator<<], in the order read, the doubles of the first
    [MAX_POINTS] pairs read that are not [(0, 0)], unchanged. The file
    gets one line for each of them: the text that [operator<<] gives for
    the two doubles and for a label between [0] and [MAX_POINTS],
    separated by single spaces. The text of a double is the library's,
    with six significant digits as the stream is left at its default
    precision, so the file does not give back the digits of the input.
    The final [writtenPoints] is the number of lines. *)
Theorem output_follows_input
    (show_double : float -> string) (show_int : Z -> string)
    (epsilon : float) (minPts : Z) (input : list (float * float))
    (c : Config) :
  dbscan_reaches epsilon minPts (load input).1 c ->
  let kept := List.filter (fun ab => negb (at_origin ab))
                          (take (Z.to_nat MAX_POINTS) input) in
  let file := write_loop show_double show_int (points (store c)) 0 in
  (output (points (store c))).*1 = kept
  /\ Forall2 (line_for show_double show_int MAX_POINTS) kept file.1
  /\ file.2 = Z.of_nat (length kept).
Proof.
  intros Hrun kept file.
  split; [exact (proj1 (operands_of_run _ _ _ _ Hrun))|].
  exact (written_of_run show_double show_int _ _ _ _ Hrun).
Qed.

(** The three points in a row after the run in which worker 0 puts all of
    them in cluster 1 before the other two workers start: three lines,
    whatever the text of a number is. *)
Lemma output_follows_input_witness :
  let start := dbscan_start (load three_in_a_row).1 in
  let sched := (replicate 31 0 ++ replicate 3 1 ++ replicate 3 2)%nat in
  let c := run_to (2.5 * 2.5) 2 sched start in
  run_schedule (2.5 * 2.5) 2 sched start = Some c
  /\ final c
  /\ output (points (store c))
     = [((1, 1)%float, 1); ((2, 1)%float, 1); ((3, 1)%float, 1)]
  /\ forall show_double show_int,
       write_loop show_double show_int (points (store c)) 0
       = ([line show_double show_int ((1, 1)%float, 1);
           line show_double show_int ((2, 1)%float, 1);
           line show_double show_int ((3, 1)%float, 1)], 3)
       /\ Forall2 (line_for show_double show_int MAX_POINTS) three_in_a_row
                  (write_loop show_double show_int (points (store c)) 0).1
       /\ (write_loop show_double show_int (points (store c)) 0).2 = 3.
Proof.
  cbv zeta.
  split; [vm_compute; reflexivity|].
  split; [apply final_by_test; vm_compute; reflexivity|].
  assert (output (points (store (run_to (2.5 * 2.5) 2
                    (replicate 31 0 ++ replicate 3 1 ++ replicate 3 2)%nat
                    (dbscan_start (load three_in_a_row).1))))
          = [((1, 1)%float, 1); ((2, 1)%float, 1); ((3, 1)%float, 1)]) as Hout
    by (vm_compute; reflexivity).
  split; [exact Hout|].
  intros show_double show_int.
  split; [by rewrite write_loop_output, Hout|].
  exact (proj2 (output_follows_input show_double show_int 2.5 2 three_in_a_row _
                  (run_to_reaches 2.5 2 _ _))).
Defined.

(** ** [main] from the input to the output *)

(** X11. [main] in every environment. It returns 1 at line 132 exactly
    when the input file cannot be opened, and at line 146 exactly when no
    pair was read. Otherwise [dbscan(2.5, 2)] runs: every run of its
    workers is finite, none gets stuck before all workers have returned,
    and all of them can return, so [dbscan] returns. Then [main] returns 1
    at line 164 exactly when the output file cannot be opened. Otherwise
    it writes one line for each of the first [MAX_POINTS] pairs read that
    is not [(0, 0)], in the order read: the text that [operator<<] gives
    for the two doubles of the pair and for a label between [0] and
    [MAX_POINTS]; [writtenPoints] is their number. It then waits in
    [std::cin.get()]: it returns 0 exactly when standard input delivers a
    character or its end, and stays there otherwise. *)
Theorem main_outcomes
    (show_double : float -> string) (show_int : Z -> string)
    (env : Environment) :
  (exists o, main_yields show_double show_int env o)
  /\ (forall o, main_yields show_double show_int env o ->
      match o with
      | CannotOpenInput => input_file env = None
      | NoPointsLoaded => input_file env = Some []
      | CannotOpenOutput =>
          exists input, input_file env = Some input /\ input <> []
                        /\ output_opens env = false
      | WaitsForKey lines writtenPoints | Done lines writtenPoints =>
          exists input,
            input_file env = Some input /\ input <> []
            /\ output_opens env = true
            /\ (console_answers env = true <-> exit_code o = Some 0)
            /\ (console_answers env = false <-> exit_code o = None)
            /\ let kept := List.filter (fun ab => negb (at_origin ab))
                                       (take (Z.to_nat MAX_POINTS) input) in
               Forall2 (line_for show_double show_int MAX_POINTS) kept lines
               /\ writtenPoints = Z.of_nat (length kept)
      end)
  /\ (forall input c,
        input_file env = Some input ->
        dbscan_reaches 2.5 2 (load input).1 c ->
        (forall n c', nsteps (dbscan_step 2.5 2) n c c' -> (n <= measure c)%nat)
        /\ (~ final c -> exists c', dbscan_step 2.5 2 c c')
        /\ (exists c', rtc (dbscan_step 2.5 2) c c' /\ final c')).
Proof.
  split; [|split].
  - unfold main_yields. destruct (input_file env) as [input|]; [|by eexists].
    destruct ((load input).2 =? 0); [by eexists|].
    destruct (reaches_completes 2.5 2 (load input).1
                (dbscan_start (load input).1) (rtc_refl _ _))
      as (c & Hrun & Hfinal).
    eexists. exists c. split; [exact Hrun|]. split; [exact Hfinal|].
    reflexivity.
  - intros o Hy. unfold main_yields in Hy.
    destruct (input_file env) as [input|] eqn:Hin; [|by subst o].
    destruct (load_array input) as (_ & Hcount & _).
    destruct ((load input).2 =? 0) eqn:Hzero.
    + apply Z.eqb_eq in Hzero. subst o.
      destruct input; [reflexivity|]. cbn [length] in Hcount.
      unfold MAX_POINTS in Hcount. lia.
    + apply Z.eqb_neq in Hzero.
      assert (input <> []) as Hne.
      { intros ->. cbn [length] in Hcount. unfold MAX_POINTS in Hcount. lia. }
      destruct Hy as (c & Hrun & Hfinal & ->). unfold finish.
      destruct (output_opens env) eqn:Hopen; [|by exists input].
      destruct (written_of_run show_double show_int _ _ _ _ Hrun)
        as [Hlines Hn].
      destruct (write_loop show_double show_int (points (store c)) 0)
        as [lines n].
      cbn [fst snd] in Hlines, Hn.
      destruct (console_answers env) eqn:Hkey; exists input;
        (split; [reflexivity|]); (split; [exact Hne|]);
        (split; [reflexivity|]); cbn [exit_code];
        (split; [split; congruence|]); (split; [split; congruence|]);
        cbv zeta; by split.
  - intros input c Hin Hrun. split; [|split].
    + intros n c' Hn. apply nsteps_measure in Hn. lia.
    + intros Hnf.
      exact (progress _ _ _ _ (reaches_invariant _ _ _ _ Hrun) Hnf).
    + exact (completes _ _ _ _ (reaches_invariant _ _ _ _ Hrun)).
Qed.

(** The input [0 0], [1 1] with a console that never answers: the run of
    worker 1 leaves the point [(1, 1)] as noise, one line is written, and
    [main] waits. With a console that answers it returns 0. *)
Lemma main_outcomes_witness :
  let waiting := {| input_file := Some with_origin; output_opens := true;
                    console_answers := false |} in
  let answering := {| input_file := Some with_origin; output_opens := true;
                      console_answers := true |} in
  (load with_origin).2 = 2
  /\ forall show_double show_int,
       let text := line show_double show_int ((1, 1)%float, 0) in
       main_yields show_double show_int waiting (WaitsForKey [text] 1)
       /\ main_yields show_double show_int answering (Done [text] 1)
       /\ exit_code (WaitsForKey [text] 1) = None
       /\ exit_code (Done [text] 1) = Some 0
       /\ Forall2 (line_for show_double show_int MAX_POINTS)
                  [(1, 1)%float] [text]
       /\ (exists c', rtc (dbscan_step 2.5 2)
                          (dbscan_start (load with_origin).1) c'
                      /\ final c').
Proof.
  cbv zeta. split; [vm_compute; reflexivity|]. intros show_double show_int.
  pose (c := run_to (2.5 * 2.5) 2 (replicate 4 1%nat)
                    (dbscan_start (load with_origin).1)).
  assert (final c) as Hfinal by (apply final_by_test; vm_compute; reflexivity).
  assert (output (points (store c)) = [((1, 1)%float, 0)]) as Hout
    by (vm_compute; reflexivity).
  assert (forall env, input_file env = Some with_origin ->
            output_opens env = true ->
            main_yields show_double show_int env
              ((if console_answers env then Done else WaitsForKey)
                 [line show_double show_int ((1, 1)%float, 0)] 1)) as Hy.
  { intros env Hin Hopen. unfold main_yields. rewrite Hin.
    replace ((load with_origin).2 =? 0) with false by (vm_compute; reflexivity).
    exists c. split; [apply run_to_reaches|]. split; [exact Hfinal|].
    unfold finish. rewrite Hopen, write_loop_output, Hout.
    by destruct (console_answers env). }
  split.
  { exact (Hy {| input_file := Some with_origin; output_opens := true;
                 console_answers := false |} eq_refl eq_refl). }
  split.
  { exact (Hy {| input_file := Some with_origin; output_opens := true;
                 console_answers := true |} eq_refl eq_refl). }
  split; [reflexivity|]. split; [reflexivity|].
  destruct (proj1 (proj2 (main_outcomes show_double show_int _)) _
              (Hy {| input_file := Some with_origin; output_opens := true;
                     console_answers := false |} eq_refl eq_refl))
    as (input & Hin & _ & _ & _ & _ & Hlines & _).
  injection Hin as <-. split; [exact Hlines|].
  exact (proj2 (proj2 (proj2 (proj2 (main_outcomes show_double show_int
           {| input_file := Some with_origin; output_opens := true;
              console_answers := false |})) with_origin
           (dbscan_start (load with_origin).1) eq_refl (rtc_refl _ _)))).
Defined.

(** ** The length of a run *)

Lemma unvisited_le pts : (unvisited pts <= length pts)%nat.
Proof.
  unfold unvisited. induction pts as [|p pts IH]; [cbn; lia|].
  rewrite sum_list_with_cons. cbn [length]. destruct (visited p); lia.
Qed.

Lemma spawn_cost cells i :
  sum_list_with thread_cost (spawn_from cells i) = (3 * slots_set cells)%nat.
Proof.
  revert i. unfold slots_set.
  induction cells as [|p cells IH]; intros i; [reflexivity|].
  cbn [spawn_from]. rewrite !sum_list_with_cons, IH.
  destruct (unset p); cbn [negb thread_cost]; lia.
Qed.

Lemma run_schedule_nsteps eps2 minPts sched c c' :
  run_schedule eps2 minPts sched c = Some c' ->
  nsteps (step eps2 minPts) (length sched) c c'.
Proof.
  revert c. induction sched as [|k sched IH]; intros c H; simpl in H.
  - injection H as <-. constructor.
  - destruct (run_thread eps2 minPts k c) as [c1|] eqn:Hk; [|discriminate].
    cbn in H. econstructor; [by eapply step_thread | by apply IH].
Qed.

(** X12. A run of [dbscan] over an array of [n] slots, [m] of them
    loaded, takes at most [(3 * MAX_NEIGHBORS + 4) * n + 3 * m] steps of
    its workers, whatever the parameters and the interleaving. *)
Theorem run_length_bounded
    (epsilon : float) (minPts : Z) (pts : list Point) (n : nat) (c : Config) :
  nsteps (dbscan_step epsilon minPts) n (dbscan_start pts) c ->
  Z.of_nat n
  <= (3 * Z.max 0 MAX_NEIGHBORS + 4) * Z.of_nat (length pts)
     + 3 * Z.of_nat (slots_set pts).
Proof.
  intros Hn%nsteps_measure.
  unfold measure in Hn. cbn [dbscan_start store workers points] in Hn.
  rewrite spawn_cost in Hn.
  pose proof (unvisited_le pts) as Hu.
  unfold visit_budget, frame_budget in Hn.
  assert (Z.of_nat (Z.to_nat MAX_NEIGHBORS) = Z.max 0 MAX_NEIGHBORS) as Hm by lia.
  nia.
Qed.

Lemma run_length_bounded_witness :
  let pts := (load three_in_a_row).1 in
  let c := run_to (2.5 * 2.5) 2 (replicate 9 0%nat) (dbscan_start pts) in
  nsteps (dbscan_step 2.5 2) 9 (dbscan_start pts) c
  /\ 9 <= (3 * Z.max 0 MAX_NEIGHBORS + 4) * Z.of_nat (length pts)
          + 3 * Z.of_nat (slots_set pts).
Proof.
  cbv zeta.
  assert (nsteps (dbscan_step 2.5 2) 9 (dbscan_start (load three_in_a_row).1)
            (run_to (2.5 * 2.5) 2 (replicate 9 0%nat)
                    (dbscan_start (load three_in_a_row).1))) as Hn.
  { apply (run_schedule_nsteps _ _ (replicate 9 0%nat)). vm_compute. reflexivity. }
  split; [exact Hn|].
  exact (run_length_bounded 2.5 2 _ 9 _ Hn).
Defined.

(** ** A point is its own neighbour *)

(** A finite double is a zero or a finite number of the specification of
    binary64. *)
Lemma finite_class (a : float) :
  is_finite a = true ->
  (exists s, FloatOps.Prim2SF a = SpecFloat.S754_zero s)
  \/ (exists s m e, FloatOps.Prim2SF a = SpecFloat.S754_finite s m e).
Proof.
  unfold is_finite, is_nan, is_infinity.
  rewrite !FloatAxioms.eqb_spec, FloatAxioms.abs_spec.
  change (FloatOps.Prim2SF infinity) with (SpecFloat.S754_infinity false).
  destruct (FloatOps.Prim2SF a) as [s|s| |s m e] eqn:Ha; cbn; intros H;
    try discriminate; eauto.
  rewrite orb_true_r in H. discriminate.
Qed.

(** A finite double minus itself is [+0]. *)
Lemma sub_self (a : float) : is_finite a = true -> (a - a)%float = 0%float.
Proof.
  intros H. apply FloatAxioms.Prim2SF_inj. rewrite FloatAxioms.sub_spec.
  change (FloatOps.Prim2SF 0) with (SpecFloat.S754_zero false).
  destruct (finite_class a H) as [[s ->] | (s & m & e & ->)].
  - destruct s; reflexivity.
  - unfold FloatAxioms.SF64sub, SpecFloat.SFsub.
    rewrite Z.min_id, Z.sub_diag. reflexivity.
Qed.

Lemma squaredDistance_self (p : Point) :
  is_finite (x p) = true -> is_finite (y p) = true ->
  squaredDistance p p = 0%float.
Proof.
  intros Hx Hy. unfold squaredDistance.
  rewrite (sub_self _ Hx), (sub_self _ Hy). reflexivity.
Qed.

(** A point with finite coordinates that is not at the origin is found by
    its own scan. *)
Lemma self_in_neighborhood eps2 pts q p :
  Z.of_nat (length pts) <= MAX_NEIGHBORS ->
  point_at pts q = Some p -> unset p = false ->
  is_finite (x p) = true -> is_finite (y p) = true ->
  PrimFloat.leb 0 eps2 = true ->
  q ∈ neighborhood eps2 pts q.
Proof.
  intros Hlen Hp Hu Hx Hy Heps. unfold neighborhood. rewrite Hp.
  rewrite take_ge.
  2:{ pose proof (within_from_length pts 0 p eps2). unfold within. lia. }
  apply within_spec. exists p.
  split; [exact Hp|]. split; [exact Hu|].
  by rewrite squaredDistance_self.
Qed.

(** X13. The point of a slot and its own scan, in binary64. Let the
    slot [q] hold a point with finite coordinates, let [epsilonSquared] be
    at least [0] and [maxNeighbors] not below the number of slots. If the
    point is not [(0, 0)], [findNeighbors] for it returns [q] among the
    neighbours, so the count is at least [1]. If the point is [(0, 0)],
    read from the input or not, the call does not return [q]. *)
Theorem findNeighbors_returns_self
    (points : list Point) (q : Z) (p : Point) (epsilonSquared : float)
    (neighbors : list Z) (maxNeighbors : Z) :
  Z.of_nat (length points) <= maxNeighbors <= Z.of_nat (length neighbors) ->
  point_at points q = Some p ->
  is_finite (x p) = true -> is_finite (y p) = true ->
  PrimFloat.leb 0 epsilonSquared = true ->
  exists neighbors' count,
    findNeighbors points p epsilonSquared neighbors maxNeighbors
    = Some (neighbors', count)
    /\ (unset p = false -> q ∈ filled neighbors' count /\ 1 <= count)
    /\ (unset p = true -> q ∉ filled neighbors' count).
Proof.
  intros [Hall Hm] Hp Hx Hy Heps.
  destruct (findNeighbors_spec points p epsilonSquared neighbors
              maxNeighbors Hm)
    as (buf' & count & Hrun & Hcount & _ & Hfill & _).
  exists buf', count. split; [exact Hrun|].
  rewrite Hfill, Hcount, take_ge.
  2:{ pose proof (within_from_length points 0 p epsilonSquared).
      unfold within. lia. }
  split.
  - intros Hu.
    assert (q ∈ within points p epsilonSquared) as Hin.
    { apply within_spec. exists p.
      split; [exact Hp|]. split; [exact Hu|].
      by rewrite squaredDistance_self. }
    split; [exact Hin|].
    destruct (within points p epsilonSquared);
      [by apply elem_of_nil in Hin | cbn [length]; lia].
  - intros Hu (p' & Hp' & Hu' & _)%within_spec. congruence.
Qed.

(** The input [0 0], [1 1] with [epsilonSquared = 4]: the scan for the
    point [(1, 1)] of slot 1 returns 1; the scan for the point [(0, 0)] of
    slot 0 returns 1 as well, and not 0. *)
Lemma findNeighbors_returns_self_witness :
  let pts := (load with_origin).1 in
  (exists neighbors' count,
     findNeighbors pts (newPoint 1 1) 4 fresh_buffer MAX_NEIGHBORS
     = Some (neighbors', count)
     /\ 1 ∈ filled neighbors' count /\ 1 <= count)
  /\ (exists neighbors' count,
        findNeighbors pts (newPoint 0 0) 4 fresh_buffer MAX_NEIGHBORS
        = Some (neighbors', count)
        /\ filled neighbors' count = [1]
        /\ 0 ∉ filled neighbors' count).
Proof.
  cbv zeta.
  assert (Z.of_nat (length (load with_origin).1) <= MAX_NEIGHBORS
          <= Z.of_nat (length fresh_buffer)) as Hroom.
  { rewrite length_fresh_buffer.
    destruct (load_array with_origin) as (_ & _ & ->).
    unfold MAX_NEIGHBORS, MAX_POINTS. lia. }
  split.
  - destruct (findNeighbors_returns_self (load with_origin).1 1 (newPoint 1 1)
                4 fresh_buffer MAX_NEIGHBORS Hroom)
      as (buf & count & Hrun & Hself & _);
      [vm_compute; reflexivity | vm_compute; reflexivity
       | vm_compute; reflexivity | vm_compute; reflexivity |].
    exists buf, count. split; [exact Hrun|].
    apply Hself. vm_compute. reflexivity.
  - destruct (findNeighbors_returns_self (load with_origin).1 0 (newPoint 0 0)
                4 fresh_buffer MAX_NEIGHBORS Hroom)
      as (buf & count & Hrun & _ & Hnot);
      [vm_compute; reflexivity | vm_compute; reflexivity
       | vm_compute; reflexivity | vm_compute; reflexivity |].
    exists buf, count. split; [exact Hrun|].
    split; [|apply Hnot; vm_compute; reflexivity].
    assert (observed (findNeighbors (load with_origin).1 (newPoint 0 0) 4
                        fresh_buffer MAX_NEIGHBORS) = Some (Neighbors [1]))
      as Hobs by (vm_compute; reflexivity).
    rewrite Hrun in Hobs. cbn in Hobs. by injection Hobs.
Defined.

(** X14. With [minPts <= 1] and [epsilon] not a NaN, when all workers have
    returned: every point with finite coordinates that is not [(0, 0)] has
    a cluster id, whatever the interleaving; a point at [(0, 0)], read
    from the input or not, has none, so it is left as noise. *)
Theorem minPts_at_most_1_labels_all_but_origin
    (epsilon : float) (minPts : Z) (pts : list Point) (c : Config)
    (q : Z) (p : Point) :
  fresh pts ->
  Z.of_nat (length pts) <= MAX_NEIGHBORS ->
  minPts <= 1 ->
  PrimFloat.leb 0 (epsilon * epsilon) = true ->
  dbscan_reaches epsilon minPts pts c ->
  final c ->
  point_at pts q = Some p ->
  is_finite (x p) = true -> is_finite (y p) = true ->
  (unset p = false -> labelled (points (store c)) q)
  /\ (unset p = true -> ~ labelled (points (store c)) q).
Proof.
  intros Hfresh Hlen Hmin Heps Hrun Hfinal Hp Hx Hy. split.
  - intros Hu.
    pose proof (self_in_neighborhood _ _ _ _ Hlen Hp Hu Hx Hy Heps) as Hself.
    assert (core (epsilon * epsilon) minPts pts q) as Hcore.
    { unfold core.
      destruct (neighborhood (epsilon * epsilon) pts q);
        [by apply elem_of_nil in Hself | cbn [length]; lia]. }
    assert (loaded pts q) as Hq by (by exists p).
    apply (final_core_expanded _ _ _ _ _ Hfresh Hrun Hfinal Hq Hcore).
  - intros Hu Hq.
    destruct (labelled_loaded _ _ _ _ _ Hfresh Hrun Hq) as (p' & Hp' & Hu').
    congruence.
Qed.

(** The input [0 0], [1 1] with [dbscan(0, 1)], all workers returned: the
    point [(1, 1)] is in cluster 1, the point [(0, 0)] has the label 0. *)
Lemma minPts_at_most_1_labels_all_but_origin_witness :
  let pts := (load with_origin).1 in
  let c := run_to (0 * 0) 1 (replicate 9 1%nat) (dbscan_start pts) in
  run_schedule (0 * 0) 1 (replicate 9 1%nat) (dbscan_start pts) = Some c
  /\ final c
  /\ labelled (points (store c)) 1
  /\ ~ labelled (points (store c)) 0
  /\ (label c 0, label c 1) = (Some 0, Some 1).
Proof.
  cbv zeta.
  assert (final (run_to (0 * 0) 1 (replicate 9 1%nat)
                        (dbscan_start (load with_origin).1))) as Hfinal
    by (apply final_by_test; vm_compute; reflexivity).
  assert (Z.of_nat (length (load with_origin).1) <= MAX_NEIGHBORS) as Hlen.
  { destruct (load_array with_origin) as (_ & _ & ->).
    unfold MAX_NEIGHBORS, MAX_POINTS. lia. }
  assert (1 <= 1) as Hmin by lia.
  assert (PrimFloat.leb 0 (0 * 0) = true) as Heps by (vm_compute; reflexivity).
  pose proof (fun q p =>
    minPts_at_most_1_labels_all_but_origin 0 1 (load with_origin).1 _ q p
      (load_fresh with_origin) Hlen Hmin Heps
      (run_to_reaches 0 1 (replicate 9 1%nat) _) Hfinal) as Hall.
  split; [vm_compute; reflexivity|].
  split; [exact Hfinal|].
  split.
  { apply (Hall 1 (newPoint 1 1)); vm_compute; reflexivity. }
  split; [|vm_compute; reflexivity].
  apply (Hall 0 (newPoint 0 0)); vm_compute; reflexivity.
Defined.

(** ** One cluster id per seeding worker *)

Lemma ids_leave rest : ids (leave rest) = ids (InExpand rest).
Proof. by destruct rest. Qed.

(** The ids of a worker after a step are the ids it had, or the new value
    of the counter when it had none. *)
Lemma thread_step_ids eps2 minPts st th st' th' ev :
  thread_step eps2 minPts st th = Some (st', th', ev) ->
  nextClusterId st <= nextClusterId st'
  /\ forall id, id ∈ ids th' ->
       id ∈ ids th
       \/ (ids th = [] /\ id = nextClusterId st + 1
           /\ nextClusterId st' = nextClusterId st + 1).
Proof.
  intros H. step_cases H.
  all: unfold set_visited, set_clusterId; cbn [nextClusterId with_points].
  all: split; [lia|].
  all: rewrite ?ids_leave.
  all: cbn [ids fmap list_fmap ec_clusterId goto next_neighbor scanned enter].
  all: intros id Hid.
  all: try (by apply elem_of_nil in Hid).
  all: try (by left).
  - right. apply list_elem_of_singleton in Hid. by subst.
  - left. apply elem_of_cons. by right.
  - left. apply elem_of_cons in Hid as [-> | Hid]; [|exact Hid].
    apply elem_of_cons. by left.
Qed.

Lemma reaches_ids_unique epsilon minPts pts c :
  dbscan_reaches epsilon minPts pts c -> ids_unique c.
Proof.
  intros Hrun. revert c Hrun. apply rtc_ind_r.
  - pose proof (spawn_from_fresh pts 0) as Hw.
    assert (forall k th, workers (dbscan_start pts) !! k = Some th ->
              ids th = []) as Hnone.
    { intros k th Hth. eapply Forall_lookup_1 in Hw; [|exact Hth].
      by destruct Hw as [-> | [j ->]]. }
    split; [cbn; lia|]. split; [|split].
    + intros k th id Hth Hid. rewrite (Hnone _ _ Hth) in Hid.
      by apply elem_of_nil in Hid.
    + intros k th id id' Hth Hid. rewrite (Hnone _ _ Hth) in Hid.
      by apply elem_of_nil in Hid.
    + intros k k' th th' id _ Hth _ Hid. rewrite (Hnone _ _ Hth) in Hid.
      by apply elem_of_nil in Hid.
  - intros c1 c2 _ (k & th & st' & th' & ev & Hk & Hs & ->)%step_inv
           (Hnn & Hrange & Hsame & Hother).
    destruct (thread_step_ids _ _ _ _ _ _ _ Hs) as [Hnext Hids].
    assert (k < length (workers c1))%nat as Hlt by (by eapply lookup_lt_Some).
    unfold ids_unique. cbn [store workers].
    split; [lia|]. split; [|split].
    + intros j thj id Hj Hid.
      destruct (decide (k = j)) as [<-|Hne].
      * rewrite list_lookup_insert_eq in Hj by exact Hlt. injection Hj as <-.
        destruct (Hids id Hid) as [Hold | (_ & -> & Hn)].
        -- specialize (Hrange k th id Hk Hold). lia.
        -- lia.
      * rewrite list_lookup_insert_ne in Hj by exact Hne.
        specialize (Hrange j thj id Hj Hid). lia.
    + intros j thj id id' Hj Hid Hid'.
      destruct (decide (k = j)) as [<-|Hne].
      * rewrite list_lookup_insert_eq in Hj by exact Hlt. injection Hj as <-.
        destruct (Hids id Hid) as [Hold | (Hnil & -> & Hn)];
          destruct (Hids id' Hid') as [Hold' | (Hnil' & -> & Hn')].
        -- by apply (Hsame k th).
        -- rewrite Hnil' in Hold. by apply elem_of_nil in Hold.
        -- rewrite Hnil in Hold'. by apply elem_of_nil in Hold'.
        -- reflexivity.
      * rewrite list_lookup_insert_ne in Hj by exact Hne.
        by apply (Hsame j thj).
    + intros j j' thj thj' id Hjj Hj Hj' Hid Hid'.
      destruct (decide (k = j)) as [<-|Hne].
      * rewrite list_lookup_insert_eq in Hj by exact Hlt. injection Hj as <-.
        rewrite list_lookup_insert_ne in Hj' by exact Hjj.
        destruct (Hids id Hid) as [Hold | (_ & -> & Hn)].
        -- by apply (Hother k j' th thj' id).
        -- specialize (Hrange j' thj' _ Hj' Hid'). lia.
      * rewrite list_lookup_insert_ne in Hj by exact Hne.
        destruct (decide (k = j')) as [<-|Hne'].
        -- rewrite list_lookup_insert_eq in Hj' by exact Hlt.
           injection Hj' as <-.
           destruct (Hids id Hid') as [Hold | (_ & -> & Hn)].
           ++ by apply (Hother j k thj th id).
           ++ specialize (Hrange j thj _ Hj Hid). lia.
        -- rewrite list_lookup_insert_ne in Hj' by exact Hne'.
           by apply (Hother j j' thj thj' id).
Qed.

(** X15. The cluster ids in use are unique per seeding worker: at any
    time of any run, all activations of [expandCluster] on the stack of
    one worker carry the same cluster id, drawn from the counter, and
    activations of different workers carry different ids. *)
Theorem one_cluster_id_per_worker
    (epsilon : float) (minPts : Z) (pts : list Point) (c : Config)
    (k k' : nat) (stack stack' : list Frame) (f f' : Frame) :
  dbscan_reaches epsilon minPts pts c ->
  workers c !! k = Some (InExpand stack) ->
  workers c !! k' = Some (InExpand stack') ->
  f ∈ stack -> f' ∈ stack' ->
  1 <= ec_clusterId f <= nextClusterId (store c)
  /\ (ec_clusterId f = ec_clusterId f' <-> k = k').
Proof.
  intros Hrun Hk Hk' Hf Hf'.
  destruct (reaches_ids_unique _ _ _ _ Hrun) as (_ & Hrange & Hsame & Hother).
  assert (ec_clusterId f ∈ ids (InExpand stack)) as Hid
    by (by apply list_elem_of_fmap_2).
  assert (ec_clusterId f' ∈ ids (InExpand stack')) as Hid'
    by (by apply list_elem_of_fmap_2).
  split; [exact (Hrange k _ _ Hk Hid)|]. split.
  - intros Heq. destruct (decide (k = k')) as [|Hne]; [done|].
    exfalso. apply (Hother k k' _ _ _ Hne Hk Hk' Hid). by rewrite Heq.
  - intros <-. assert (stack' = stack) as -> by congruence.
    exact (Hsame k _ _ _ Hk Hid Hid').
Qed.

Lemma one_cluster_id_per_worker_witness :
  let pts := (load two_groups).1 in
  let c := run_to (2.5 * 2.5) 4 (replicate 8 1 ++ replicate 7 4)%nat
                  (dbscan_start pts) in
  dbscan_reaches 2.5 4 pts c
  /\ standing c 1 = Some (AtStore, 1, 1, Some 0)
  /\ standing c 4 = Some (AtStore, 4, 2, Some 0)
  /\ forall stack stack' f f',
       workers c !! 1%nat = Some (InExpand stack) ->
       workers c !! 4%nat = Some (InExpand stack') ->
       f ∈ stack -> f' ∈ stack' ->
       1 <= ec_clusterId f <= nextClusterId (store c)
       /\ (ec_clusterId f = ec_clusterId f' <-> 1%nat = 4%nat).
Proof.
  cbv zeta. split; [apply run_to_reaches|].
  split; [vm_compute; reflexivity|]. split; [vm_compute; reflexivity|].
  intros stack stack' f f'.
  apply (one_cluster_id_per_worker 2.5 4 (load two_groups).1).
  apply run_to_reaches.
Defined.
